(** * The seeded sequence generator of [src/utils/random.ts]

  [seededRandom] is a linear congruential generator written with
  JavaScript numbers, that is with IEEE-754 binary64 values.  The
  development embeds it over the Standard Library's executable
  specification of binary floating point ([SpecFloat], precision 53,
  maximal exponent 1024), with the two operations the library lacks
  ([%] and [Math.floor]) written after ECMA-262, and with the closure's
  captured variable kept in a store of environment cells.

  Layout: the definitions come first (numbers, the program, the exact
  integer sequence of the specification, the recurrence of the source on
  the integers), then the facts about binary64 arithmetic and about the
  sequence of states on the integers (period, permutation of the seeds,
  low bits), then the properties of the generator: those of the
  specification, and what follows for the values returned. *)

From Stdlib Require Import ZArith QArith Qround List Bool Lia String.
From Stdlib Require Import Floats.SpecFloat.
From stdpp Require Import gmap.
Import ListNotations.
Local Open Scope Z_scope.

(** ** JavaScript numbers *)

Module Number.

Definition prec : Z := 53.
Definition emax : Z := 1024.

Abbreviation number := spec_float.

(** A decimal integer literal of the source (or an integer argument of a
    caller) denotes the nearest binary64 value. *)
Definition lit (n : Z) : number := binary_normalize prec emax n 0 false.

Definition mul : number -> number -> number := SFmul prec emax.
Definition add : number -> number -> number := SFadd prec emax.
Definition sub : number -> number -> number := SFsub prec emax.
Definition div : number -> number -> number := SFdiv prec emax.

(** [n % d], ECMA-262 Number::remainder: the exact remainder of the
    truncating division, with the sign of the dividend (a zero result
    keeps that sign too).  Both operands are brought to the smaller
    exponent [e]; the remainder of the two integer significands is then
    a multiple of [2^e] below both operands, hence a binary64 value. *)
Definition rem (n d : number) : number :=
  match n, d with
  | S754_nan, _ | _, S754_nan => S754_nan
  | S754_infinity _, _ => S754_nan
  | _, S754_infinity _ => n
  | _, S754_zero _ => S754_nan
  | S754_zero _, _ => n
  | S754_finite sn mn en, S754_finite _ md ed =>
      let e := Z.min en ed in
      let r := Z.rem (Z.shiftl (Zpos mn) (en - e)) (Z.shiftl (Zpos md) (ed - e)) in
      binary_normalize prec emax (cond_Zopp sn r) e sn
  end.

(** [Math.floor x]: the greatest integral number not above [x]; NaN,
    the infinities and both zeros are returned unchanged. *)
Definition floor (x : number) : number :=
  match x with
  | S754_finite s m e =>
      if 0 <=? e then x
      else binary_normalize prec emax (Z.shiftr (cond_Zopp s (Zpos m)) (- e)) 0 s
  | _ => x
  end.

(** The comparisons [x < y], [x <= y] and [x === y] on numbers. *)
Definition ltb : number -> number -> bool := SFltb.
Definition leb : number -> number -> bool := SFleb.
Definition eqb : number -> number -> bool := SFeqb.

(** [Number.isFinite]. *)
Definition is_finite (x : number) : bool :=
  match x with S754_zero _ | S754_finite _ _ _ => true | _ => false end.

(** [Number.isInteger]: a finite number whose value [m * 2^e] has no
    fractional bit. *)
Definition is_integer (x : number) : bool :=
  match x with
  | S754_zero _ => true
  | S754_finite _ m e => (0 <=? e) || (Zpos m mod 2 ^ (- e) =? 0)
  | _ => false
  end.

(** The integer an integral number stands for (both zeros stand for 0). *)
Definition to_Z (x : number) : Z :=
  match x with
  | S754_finite s m e =>
      cond_Zopp s (if 0 <=? e then Zpos m * 2 ^ e else Zpos m / 2 ^ (- e))
  | _ => 0
  end.

(** The significand and the exponent of the normal number of value
    [n * 2^e], for a nonzero [n] of at most 53 bits. *)
Definition significand (n : Z) : Z := Z.abs n * 2 ^ (prec - Zdigits2 n).
Definition exponent (n e : Z) : Z := e + Zdigits2 n - prec.
Definition normal (n e : Z) : number :=
  S754_finite (n <? 0) (Z.to_pos (significand n)) (exponent n e).

(** A significand of exactly 53 bits with an exponent of the normal range. *)
Definition canonical (q t : Z) : Prop :=
  2 ^ 52 <= q < 2 ^ 53 /\ -1074 <= t <= 971.

(** The value [m * 2^e] is an integer. *)
Definition integral (m e : Z) : Prop := 0 <= e \/ (2 ^ (- e) | m).

(** An integral number or an infinity: what a product or a sum of
    integral numbers can be. *)
Definition integer_or_infinite (x : number) : Prop :=
  is_integer x = true \/ exists s, x = S754_infinity s.

(** [n] is a nonzero integer of at most 53 bits. *)
Definition small (n : Z) : Prop := 0 < Z.abs n < 2 ^ 53.

Definition sign (x : number) : bool :=
  match x with
  | S754_zero s | S754_infinity s | S754_finite s _ _ => s
  | S754_nan => false
  end.

End Number.

Declare Scope js_scope.
Delimit Scope js_scope with js.
Bind Scope js_scope with spec_float.
Infix "*" := Number.mul : js_scope.
Infix "+" := Number.add : js_scope.
Infix "-" := Number.sub : js_scope.
Infix "/" := Number.div : js_scope.
Infix "mod" := Number.rem : js_scope.
Infix "<" := Number.ltb : js_scope.
Infix "<=" := Number.leb : js_scope.
Infix "===" := Number.eqb (at level 70, no associativity) : js_scope.
Notation "# n" := (Number.lit n) (at level 1, n at level 0, format "# n") : js_scope.

(** ** The program *)

Module Random.
Import Number.

(** *** The body of the returned arrow function

    [state = (state * 1664525 + 1013904223) % 2147483648;] *)
Definition assign_state (state : number) : number :=
  ((state * #1664525 + #1013904223) mod #2147483648)%js.

(** [return Math.floor((state / 2147483648) * (max - min)) + min;] *)
Definition return_value (state min max : number) : number :=
  (floor ((state / #2147483648) * (max - min)) + min)%js.

(** One call [(min, max) => { ... }] on the captured [state]: the value
    returned and the new content of [state]. *)
Definition draw (min max : number) (state : number) : number * number :=
  let state := assign_state state in
  (return_value state min max, state).

(** A run of calls on one captured variable: the values returned, in
    order, and the final [state]. *)
Fixpoint draws (calls : list (number * number)) (state : number)
  : list number * number :=
  match calls with
  | [] => ([], state)
  | (min, max) :: calls =>
      let '(v, state) := draw min max state in
      let '(vs, state) := draws calls state in
      (v :: vs, state)
  end.

(** *** Closures and their environments

    Every call of [seededRandom] creates a new environment holding its
    own [let state = seed], and returns a function closed over it.  The
    store maps the location of each environment to the current value of
    its [state]; a generator is the location of its environment. *)
Definition loc := nat.
Abbreviation store := (gmap loc number).

(** The outcome of a call: a returned value, or a thrown error (named
    by its constructor). *)
Inductive completion : Type :=
| Normal (v : number)
| Throw (name : string).

(** [seededRandom(seed)] *)
Definition seededRandom (seed : number) (sigma : store) : loc * store :=
  let g := fresh (dom sigma) in
  (g, <[g := seed]> sigma).

(** [g(min, max)] for a generator [g]: the body has two statements, an
    assignment and a [return]; no statement throws.  [None] only when
    [g] is not a generator of the store. *)
Definition call (g : loc) (min max : number) (sigma : store)
  : option (completion * store) :=
  match sigma !! g with
  | None => None
  | Some state =>
      let '(v, state) := draw min max state in
      Some (Normal v, <[g := state]> sigma)
  end.

(** [calls.map(([min, max]) => g(min, max))] *)
Fixpoint call_all (g : loc) (calls : list (number * number)) (sigma : store)
  : option (list completion * store) :=
  match calls with
  | [] => Some ([], sigma)
  | (min, max) :: calls =>
      match call g min max sigma with
      | None => None
      | Some (c, sigma) =>
          match call_all g calls sigma with
          | None => None
          | Some (cs, sigma) => Some (c :: cs, sigma)
          end
      end
  end.

(** What [state] can hold once a call has assigned it: NaN (after an
    overflow to infinity), a zero, or a nonzero integer of magnitude
    below [2^31]. *)
Definition assigned (state : number) : Prop :=
  state = S754_nan
  \/ (exists b, state = S754_zero b)
  \/ (exists r, 0 < Z.abs r < 2147483648 /\ state = lit r).

(** A zero or an integer of magnitude below [2^53]. *)
Definition safe_integer (state : number) : Prop :=
  (exists b, state = S754_zero b)
  \/ (exists n, Z.abs n < 2 ^ 53 /\ state = lit n).

(** The value test [min <= v && v < max]. *)
Definition in_range (min max v : number) : bool :=
  ((min <= v)%js && (v < max)%js)%bool.

End Random.

(** ** The exact sequence the specification describes *)

Module Exact.

Definition multiplier : Z := 1664525.
Definition increment : Z := 1013904223.
Definition modulus : Z := 2147483648.

(** [state = (state * 1664525 + 1013904223) mod 2147483648], over the
    integers. *)
Definition next (state : Z) : Z :=
  (state * multiplier + increment) mod modulus.

(** [floor((state / 2147483648) * (max - min)) + min], over the
    rationals. *)
Definition value (state min max : Z) : Z :=
  Qfloor ((inject_Z state / inject_Z modulus) * inject_Z (max - min)) + min.

(** The state after [n] draws. *)
Definition state_after (n : nat) (seed : Z) : Z := Nat.iter n next seed.

(** The largest seed whose first product and sum stay below [2^53]. *)
Definition max_exact_seed : Z := 5411272429.

End Exact.

(** ** The recurrence of the source on the integers *)

Module Orbit.

(** [(state * 1664525 + 1013904223) % 2147483648] with the remainder of
    [%], which truncates and keeps the sign of the dividend. *)
Definition next_rem (state : Z) : Z :=
  Z.rem (state * 1664525 + 1013904223) 2147483648.

(** [1 + a + ... + a^(n-1)]: the coefficient of the increment after [n]
    steps of [x' = a * x + c]. *)
Fixpoint geometric (a : Z) (n : nat) : Z :=
  match n with
  | O => 0
  | S n => 1 + a * geometric a n
  end.

End Orbit.

(** * Facts about binary64 arithmetic *)

Module Binary64.
Import Number.

(** ** Powers of two and the number of digits *)

Lemma pow2_pos (k : Z) : 0 <= k -> 0 < 2 ^ k.
Proof. intros; apply Z.pow_pos_nonneg; lia. Qed.

Lemma pow2_split (a b : Z) : 0 <= a -> 0 <= b -> 2 ^ (a + b) = 2 ^ a * 2 ^ b.
Proof. intros; apply Z.pow_add_r; assumption. Qed.

Lemma pow2_le (a b : Z) : 0 <= a <= b -> 2 ^ a <= 2 ^ b.
Proof. intros; apply Z.pow_le_mono_r; lia. Qed.

Lemma pow2_lt (a b : Z) : 0 <= a < b -> 2 ^ a < 2 ^ b.
Proof. intros; apply Z.pow_lt_mono_r; lia. Qed.

Lemma digits2_pos_bounds (m : positive) :
  2 ^ (Zpos (digits2_pos m) - 1) <= Zpos m < 2 ^ Zpos (digits2_pos m).
Proof.
  induction m as [m IH | m IH | ]; cbn [digits2_pos].
  - rewrite Pos2Z.inj_succ, (Pos2Z.inj_xI m).
    replace (Z.succ (Zpos (digits2_pos m)) - 1) with (1 + (Zpos (digits2_pos m) - 1)) by lia.
    replace (Z.succ (Zpos (digits2_pos m))) with (1 + Zpos (digits2_pos m)) by lia.
    rewrite !pow2_split by lia. change (2 ^ 1) with 2. lia.
  - rewrite Pos2Z.inj_succ, (Pos2Z.inj_xO m).
    replace (Z.succ (Zpos (digits2_pos m)) - 1) with (1 + (Zpos (digits2_pos m) - 1)) by lia.
    replace (Z.succ (Zpos (digits2_pos m))) with (1 + Zpos (digits2_pos m)) by lia.
    rewrite !pow2_split by lia. change (2 ^ 1) with 2. lia.
  - change (1 <= 1 < 2). lia.
Qed.

Lemma Zdigits2_bounds (m : Z) :
  0 < m -> 2 ^ (Zdigits2 m - 1) <= m < 2 ^ Zdigits2 m.
Proof.
  destruct m as [ | p | p]; try lia. intros _. apply digits2_pos_bounds.
Qed.

Lemma Zdigits2_pos (m : Z) : 0 < m -> 1 <= Zdigits2 m.
Proof. destruct m; simpl; lia. Qed.

Lemma Zdigits2_unique (m d : Z) :
  2 ^ (d - 1) <= m < 2 ^ d -> 0 < m -> Zdigits2 m = d.
Proof.
  intros Hd Hm.
  pose proof (Zdigits2_bounds m Hm) as Hb.
  pose proof (Zdigits2_pos m Hm) as Hp.
  assert (1 <= d) as Hd1.
  { destruct (Z_lt_le_dec d 1) as [Hlt | ]; [ | assumption].
    destruct (Z.eq_dec d 0) as [-> | Hne]; [change (2 ^ 0) with 1 in Hd; lia | ].
    rewrite (Z.pow_neg_r 2 d) in Hd by lia. lia. }
  destruct (Z.lt_trichotomy (Zdigits2 m) d) as [Hlt | [Heq | Hgt]]; [ | assumption | ].
  - pose proof (pow2_le (Zdigits2 m) (d - 1)). lia.
  - pose proof (pow2_le d (Zdigits2 m - 1)). lia.
Qed.

Lemma Zdigits2_shift (m j : Z) :
  0 < m -> 0 <= j -> Zdigits2 (m * 2 ^ j) = Zdigits2 m + j.
Proof.
  intros Hm Hj.
  pose proof (Zdigits2_bounds m Hm) as Hb.
  pose proof (Zdigits2_pos m Hm) as Hp.
  pose proof (pow2_pos j Hj) as Hj2.
  apply Zdigits2_unique; [ | nia].
  replace (Zdigits2 m + j - 1) with (Zdigits2 m - 1 + j) by lia.
  rewrite !pow2_split by lia. nia.
Qed.

Lemma Zdigits2_abs (m : Z) : Zdigits2 (Z.abs m) = Zdigits2 m.
Proof. destruct m; reflexivity. Qed.

Lemma Zdigits2_le (m d : Z) : 0 < m -> 0 <= d -> m < 2 ^ d -> Zdigits2 m <= d.
Proof.
  intros Hm Hd Hlt.
  pose proof (Zdigits2_bounds m Hm) as Hb.
  destruct (Z_le_gt_dec (Zdigits2 m) d) as [ | Hgt]; [assumption | ].
  pose proof (pow2_le d (Zdigits2 m - 1)). lia.
Qed.

(** ** Shifting significands *)

Lemma Pos_iter_xO (m d : positive) :
  Zpos (Pos.iter xO m d) = Zpos m * 2 ^ Zpos d.
Proof.
  induction d as [ | d IH] using Pos.peano_ind.
  - cbn [Pos.iter]. rewrite Pos2Z.inj_xO. change (2 ^ 1) with 2. lia.
  - rewrite Pos.iter_succ, (Pos2Z.inj_xO (Pos.iter xO m d)), IH, Pos2Z.inj_succ.
    unfold Z.succ. rewrite pow2_split by lia. change (2 ^ 1) with 2. lia.
Qed.

Lemma shr_1_double (m : Z) :
  shr_1 (Build_shr_record (2 * m) false false) = Build_shr_record m false false.
Proof. destruct m; reflexivity. Qed.

Lemma iter_shr_1_exact (p : positive) :
  forall m : Z,
    SpecFloat.iter_pos shr_1 p (Build_shr_record (m * 2 ^ Zpos p) false false)
    = Build_shr_record m false false.
Proof.
  induction p as [p IH | p IH | ]; intros m; cbn [SpecFloat.iter_pos].
  - rewrite (Pos2Z.inj_xI p).
    replace (m * 2 ^ (2 * Zpos p + 1)) with (2 * (m * 2 ^ Zpos p * 2 ^ Zpos p)).
    + rewrite shr_1_double, !IH. reflexivity.
    + replace (2 * Zpos p + 1) with (Zpos p + Zpos p + 1) by lia.
      rewrite !pow2_split by lia. change (2 ^ 1) with 2. lia.
  - rewrite (Pos2Z.inj_xO p).
    replace (m * 2 ^ (2 * Zpos p)) with (m * 2 ^ Zpos p * 2 ^ Zpos p).
    + rewrite !IH. reflexivity.
    + replace (2 * Zpos p) with (Zpos p + Zpos p) by lia.
      rewrite !pow2_split by lia. lia.
  - change (2 ^ 1) with 2. rewrite Z.mul_comm. apply shr_1_double.
Qed.

Lemma shr_1_m (mrs : shr_record) :
  0 <= shr_m mrs -> shr_m (shr_1 mrs) = shr_m mrs / 2.
Proof.
  destruct mrs as [m r s]; cbn [shr_m]. intros Hm.
  destruct m as [ | [q | q | ] | q]; cbn [shr_1 shr_m]; try lia.
  - reflexivity.
  - rewrite (Pos2Z.inj_xI q). apply Z.div_unique with 1; lia.
  - rewrite (Pos2Z.inj_xO q). apply Z.div_unique with 0; lia.
  - reflexivity.
Qed.

Lemma div_pow2_pow2 (a j k : Z) :
  0 <= j -> 0 <= k -> a / 2 ^ j / 2 ^ k = a / 2 ^ (j + k).
Proof.
  intros Hj Hk. pose proof (pow2_pos j Hj). pose proof (pow2_pos k Hk).
  rewrite pow2_split by lia. apply Z.div_div; lia.
Qed.

Lemma div_pow2_nonneg (a k : Z) : 0 <= a -> 0 <= k -> 0 <= a / 2 ^ k.
Proof. intros Ha Hk. apply Z.div_pos; [assumption | apply pow2_pos; assumption]. Qed.

Lemma iter_shr_1_m (p : positive) :
  forall mrs : shr_record,
    0 <= shr_m mrs ->
    shr_m (SpecFloat.iter_pos shr_1 p mrs) = shr_m mrs / 2 ^ Zpos p.
Proof.
  induction p as [p IH | p IH | ]; intros mrs Hm; cbn [SpecFloat.iter_pos].
  - assert (0 <= shr_m (shr_1 mrs)) as H1
      by (rewrite shr_1_m by assumption; apply (div_pow2_nonneg _ 1); lia).
    assert (0 <= shr_m (SpecFloat.iter_pos shr_1 p (shr_1 mrs))) as H2
      by (rewrite IH by assumption; apply div_pow2_nonneg; lia).
    rewrite IH, IH, shr_1_m by assumption.
    change 2 with (2 ^ 1) at 1. rewrite !div_pow2_pow2 by lia.
    f_equal. f_equal. lia.
  - assert (0 <= shr_m (SpecFloat.iter_pos shr_1 p mrs)) as H2
      by (rewrite IH by assumption; apply div_pow2_nonneg; lia).
    rewrite IH, IH by assumption.
    rewrite !div_pow2_pow2 by lia.
    f_equal. f_equal. lia.
  - apply shr_1_m; assumption.
Qed.

(** ** Rounding a value that needs no rounding *)

Lemma canonical_digits (q t : Z) : canonical q t -> Zdigits2 q = 53.
Proof.
  intros [Hq _]. apply Zdigits2_unique; [exact Hq | ].
  pose proof (pow2_pos 52). lia.
Qed.

Lemma canonical_pos (q t : Z) : canonical q t -> 0 < q.
Proof. intros [Hq _]. pose proof (pow2_pos 52). lia. Qed.

Lemma fexp_normal (d t : Z) :
  -1074 <= t -> d = t + 53 -> fexp prec emax d = t.
Proof. unfold fexp, emin, prec, emax. lia. Qed.

Lemma shr_fexp_exact (q t n : Z) :
  canonical q t -> 0 <= n ->
  shr_fexp prec emax (q * 2 ^ n) (t - n) loc_Exact
  = (Build_shr_record q false false, t).
Proof.
  intros Hc Hn. pose proof (canonical_pos q t Hc) as Hq.
  unfold shr_fexp.
  rewrite Zdigits2_shift, (canonical_digits q t Hc) by assumption.
  rewrite (fexp_normal _ t) by (destruct Hc; lia).
  replace (t - (t - n)) with n by lia.
  unfold shr. cbn [shr_record_of_loc].
  destruct n as [ | p | p]; [ | | lia].
  - rewrite Z.mul_1_r. f_equal. lia.
  - rewrite iter_shr_1_exact. f_equal. lia.
Qed.

Lemma binary_round_aux_exact (s : bool) (q t n : Z) :
  canonical q t -> 0 <= n ->
  binary_round_aux prec emax s (q * 2 ^ n) (t - n) loc_Exact
  = S754_finite s (Z.to_pos q) t.
Proof.
  intros Hc Hn. pose proof (canonical_pos q t Hc) as Hq.
  unfold binary_round_aux.
  rewrite shr_fexp_exact by assumption.
  cbn [shr_m loc_of_shr_record round_nearest_even].
  pose proof (shr_fexp_exact q t 0 Hc (Z.le_refl 0)) as H0.
  rewrite Z.mul_1_r, Z.sub_0_r in H0. rewrite H0. cbn [shr_m].
  destruct q as [ | q | q]; try lia.
  replace (t <=? emax - prec) with true; [reflexivity | ].
  symmetry. apply Z.leb_le. unfold emax, prec. destruct Hc. lia.
Qed.

Lemma binary_round_down (s : bool) (m : positive) (q t n : Z) :
  canonical q t -> 0 <= n -> Zpos m = q * 2 ^ n ->
  binary_round prec emax s m (t - n) = S754_finite s (Z.to_pos q) t.
Proof.
  intros Hc Hn Hm. pose proof (canonical_pos q t Hc) as Hq.
  unfold binary_round.
  change (Zpos (digits2_pos m)) with (Zdigits2 (Zpos m)).
  rewrite Hm, Zdigits2_shift, (canonical_digits q t Hc) by assumption.
  rewrite (fexp_normal _ t) by (destruct Hc; lia).
  unfold shl_align.
  destruct (t - (t - n)) as [ | d | d] eqn:Hd; try lia;
    rewrite Hm; apply binary_round_aux_exact; assumption.
Qed.

Lemma binary_round_up (s : bool) (m : positive) (q t n : Z) :
  canonical q t -> 0 <= n -> q = Zpos m * 2 ^ n ->
  binary_round prec emax s m (t + n) = S754_finite s (Z.to_pos q) t.
Proof.
  intros Hc Hn Hm. pose proof (canonical_pos q t Hc) as Hq.
  destruct (Z.eq_dec n 0) as [-> | Hn0].
  { rewrite <- (Z.sub_0_r (t + 0)), Z.add_0_r.
    apply binary_round_down; [assumption | lia | ].
    change (2 ^ 0) with 1 in *. lia. }
  unfold binary_round.
  change (Zpos (digits2_pos m)) with (Zdigits2 (Zpos m)).
  assert (Zdigits2 (Zpos m) = 53 - n) as Hdm.
  { pose proof (Zdigits2_shift (Zpos m) n) as Hs.
    rewrite <- Hm, (canonical_digits q t Hc) in Hs. lia. }
  rewrite Hdm, (fexp_normal _ t) by (destruct Hc; lia).
  unfold shl_align.
  destruct (t - (t + n)) as [ | d | d] eqn:Hd; try lia.
  rewrite Pos_iter_xO.
  replace (Zpos d) with n by lia. rewrite <- Hm.
  pose proof (binary_round_aux_exact s q t 0 Hc (Z.le_refl 0)) as H0.
  rewrite Z.mul_1_r, Z.sub_0_r in H0. exact H0.
Qed.

(** ** Integers and dyadic fractions of at most 53 bits *)

Lemma small_digits (n : Z) : small n -> 1 <= Zdigits2 n <= 53.
Proof.
  intros [Hn Hlt]. rewrite <- Zdigits2_abs. split.
  - apply Zdigits2_pos; assumption.
  - apply Zdigits2_le; [assumption | lia | assumption].
Qed.

Lemma significand_bounds (n : Z) :
  small n -> 2 ^ 52 <= significand n < 2 ^ 53.
Proof.
  intros Hs. pose proof (small_digits n Hs) as Hd. destruct Hs as [Hn Hlt].
  pose proof (Zdigits2_bounds (Z.abs n) Hn) as Hb. rewrite Zdigits2_abs in Hb.
  unfold significand, prec.
  pose proof (pow2_pos (53 - Zdigits2 n)).
  replace 52 with (Zdigits2 n - 1 + (53 - Zdigits2 n)) at 1 by lia.
  replace 53 with (Zdigits2 n + (53 - Zdigits2 n)) at 4 by lia.
  rewrite !pow2_split by lia. nia.
Qed.

Lemma normal_canonical (n e : Z) :
  small n -> -1021 <= e <= 971 -> canonical (significand n) (exponent n e).
Proof.
  intros Hs He. split; [apply significand_bounds; assumption | ].
  pose proof (small_digits n Hs). unfold exponent, prec. lia.
Qed.

(** [binary_normalize] depends on the value [n * 2^j * 2^e] only. *)
Lemma binary_normalize_scaled (n j e : Z) (sz : bool) :
  small n -> 0 <= j -> -1021 <= e + j <= 971 ->
  binary_normalize prec emax (n * 2 ^ j) e sz = normal n (e + j).
Proof.
  intros Hs Hj He.
  pose proof (normal_canonical n (e + j) Hs He) as Hc.
  pose proof (small_digits n Hs) as Hd.
  pose proof (pow2_pos j Hj) as Hj2.
  assert (Z.abs (n * 2 ^ j) = Z.abs n * 2 ^ j) as Habs
    by (rewrite Z.abs_mul, (Z.abs_eq (2 ^ j)); lia).
  assert (forall s (m : positive),
             Zpos m = Z.abs n * 2 ^ j ->
             binary_round prec emax s m e
             = S754_finite s (Z.to_pos (significand n)) (exponent n (e + j))) as Hr.
  { intros s m Hm.
    destruct (Z_le_gt_dec (53 - Zdigits2 n) j) as [Hle | Hgt].
    - assert (Zpos m = significand n * 2 ^ (j - (53 - Zdigits2 n))) as Heq.
      { rewrite Hm. unfold significand, prec.
        rewrite <- Z.mul_assoc, <- pow2_split by lia.
        f_equal. f_equal. lia. }
      pose proof (binary_round_down s m _ _ (j - (53 - Zdigits2 n)) Hc ltac:(lia) Heq) as H.
      replace (exponent n (e + j) - (j - (53 - Zdigits2 n))) with e in H
        by (unfold exponent, prec; lia).
      exact H.
    - assert (significand n = Zpos m * 2 ^ (53 - Zdigits2 n - j)) as Heq.
      { rewrite Hm. unfold significand, prec.
        rewrite <- Z.mul_assoc, <- pow2_split by lia.
        f_equal. f_equal. lia. }
      pose proof (binary_round_up s m _ _ (53 - Zdigits2 n - j) Hc ltac:(lia) Heq) as H.
      replace (exponent n (e + j) + (53 - Zdigits2 n - j)) with e in H
        by (unfold exponent, prec; lia).
      exact H. }
  unfold normal, binary_normalize.
  destruct Hs as [Hn Hlt].
  destruct (n * 2 ^ j) as [ | m | m] eqn:Hm.
  - lia.
  - replace (n <? 0) with false by (symmetry; apply Z.ltb_ge; nia).
    apply Hr. lia.
  - replace (n <? 0) with true by (symmetry; apply Z.ltb_lt; nia).
    apply Hr. lia.
Qed.

Lemma binary_normalize_small (n e : Z) (sz : bool) :
  small n -> -1021 <= e <= 971 ->
  binary_normalize prec emax n e sz = normal n e.
Proof.
  intros Hs He.
  rewrite <- (Z.mul_1_r n) at 1. change 1 with (2 ^ 0) at 1.
  rewrite binary_normalize_scaled by (assumption || lia).
  rewrite Z.add_0_r. reflexivity.
Qed.

Lemma lit_small (n : Z) : small n -> lit n = normal n 0.
Proof. intros Hs. apply binary_normalize_small; [assumption | lia]. Qed.

(** ** The operations on values that need no rounding *)

Lemma significand_pos (n : Z) : small n -> 0 < significand n.
Proof. intros Hs. pose proof (significand_bounds n Hs). pose proof (pow2_pos 52). lia. Qed.

Lemma significand_to_pos (n : Z) :
  small n -> Zpos (Z.to_pos (significand n)) = significand n.
Proof. intros Hs. apply Z2Pos.id, significand_pos; assumption. Qed.

Lemma signed_significand (n : Z) :
  small n ->
  cond_Zopp (n <? 0) (Zpos (Z.to_pos (significand n)))
  = n * 2 ^ (prec - Zdigits2 n).
Proof.
  intros Hs. rewrite significand_to_pos by assumption.
  unfold significand, cond_Zopp.
  destruct (Z.ltb_spec n 0); [rewrite Z.abs_neq | rewrite Z.abs_eq]; lia.
Qed.

Lemma mul_canonical (s1 s2 : bool) (m1 m2 : positive) (t1 t2 q n : Z) :
  canonical q (t1 + t2 + n) -> 0 <= n -> Zpos m1 * Zpos m2 = q * 2 ^ n ->
  mul (S754_finite s1 m1 t1) (S754_finite s2 m2 t2)
  = S754_finite (xorb s1 s2) (Z.to_pos q) (t1 + t2 + n).
Proof.
  intros Hc Hn Hm. unfold mul, SFmul.
  rewrite Pos2Z.inj_mul, Hm.
  replace (t1 + t2) with (t1 + t2 + n - n) at 1 by lia.
  apply binary_round_aux_exact; assumption.
Qed.

Lemma Zdigits2_mul_lower (x y : Z) :
  x <> 0 -> y <> 0 -> Zdigits2 x + Zdigits2 y - 1 <= Zdigits2 (x * y).
Proof.
  intros Hx Hy.
  rewrite <- (Zdigits2_abs x), <- (Zdigits2_abs y), <- (Zdigits2_abs (x * y)), Z.abs_mul.
  assert (0 < Z.abs x) as Hax by lia. assert (0 < Z.abs y) as Hay by lia.
  pose proof (Zdigits2_bounds _ Hax) as Hbx. pose proof (Zdigits2_bounds _ Hay) as Hby.
  pose proof (Zdigits2_pos _ Hax). pose proof (Zdigits2_pos _ Hay).
  assert (0 < Z.abs x * Z.abs y) as Hxy by nia.
  pose proof (Zdigits2_bounds _ Hxy) as Hb. pose proof (Zdigits2_pos _ Hxy).
  destruct (Z_le_gt_dec (Zdigits2 (Z.abs x) + Zdigits2 (Z.abs y) - 1)
              (Zdigits2 (Z.abs x * Z.abs y))) as [ | Hgt]; [assumption | exfalso].
  pose proof (pow2_le (Zdigits2 (Z.abs x * Z.abs y))
                (Zdigits2 (Z.abs x) - 1 + (Zdigits2 (Z.abs y) - 1)) ltac:(lia)) as Hle.
  rewrite pow2_split in Hle by lia.
  pose proof (pow2_pos (Zdigits2 (Z.abs x) - 1)). pose proof (pow2_pos (Zdigits2 (Z.abs y) - 1)).
  nia.
Qed.

Lemma xorb_ltb_mul (x y : Z) :
  x <> 0 -> y <> 0 -> xorb (x <? 0) (y <? 0) = (x * y <? 0).
Proof.
  intros Hx Hy.
  destruct (Z.ltb_spec x 0), (Z.ltb_spec y 0), (Z.ltb_spec (x * y) 0);
    try reflexivity; nia.
Qed.

(** The product of two dyadic fractions whose exact product has at most
    53 bits is that product. *)
Lemma mul_normal (x y ex ey : Z) :
  small x -> small y -> small (x * y) -> -1021 <= ex + ey <= 971 ->
  mul (normal x ex) (normal y ey) = normal (x * y) (ex + ey).
Proof.
  intros Hx Hy Hxy He.
  pose proof (small_digits x Hx). pose proof (small_digits y Hy).
  pose proof (small_digits _ Hxy).
  assert (x <> 0) as Hx0 by (destruct Hx; lia).
  assert (y <> 0) as Hy0 by (destruct Hy; lia).
  pose proof (Zdigits2_mul_lower x y Hx0 Hy0) as Hd.
  unfold normal.
  pose proof (mul_canonical (x <? 0) (y <? 0)
                (Z.to_pos (significand x)) (Z.to_pos (significand y))
                (exponent x ex) (exponent y ey) (significand (x * y))
                (53 + Zdigits2 (x * y) - Zdigits2 x - Zdigits2 y)) as Hmul.
  replace (exponent x ex + exponent y ey
           + (53 + Zdigits2 (x * y) - Zdigits2 x - Zdigits2 y))
    with (exponent (x * y) (ex + ey)) in Hmul by (unfold exponent, prec; lia).
  rewrite xorb_ltb_mul in Hmul by assumption.
  apply Hmul; [apply normal_canonical; assumption | lia | ].
  rewrite !significand_to_pos by assumption.
  unfold significand, prec. rewrite Z.abs_mul.
  assert (2 ^ (53 - Zdigits2 x) * 2 ^ (53 - Zdigits2 y)
          = 2 ^ (53 - Zdigits2 (x * y))
            * 2 ^ (53 + Zdigits2 (x * y) - Zdigits2 x - Zdigits2 y)) as Hp.
  { rewrite <- (pow2_split (53 - Zdigits2 x)), <- (pow2_split (53 - Zdigits2 (x * y))) by lia.
    f_equal. lia. }
  transitivity (Z.abs x * Z.abs y * (2 ^ (53 - Zdigits2 x) * 2 ^ (53 - Zdigits2 y)));
    [ring | rewrite Hp; ring].
Qed.

Lemma lit_modulus : lit 2147483648 = S754_finite false 4503599627370496 (-21).
Proof. reflexivity. Qed.

(** Multiplying by [2^31] only moves the exponent. *)
Lemma mul_normal_modulus (x e : Z) :
  small x -> -1021 <= e + 31 <= 971 ->
  mul (normal x e) (lit 2147483648) = normal x (e + 31).
Proof.
  intros Hx He. rewrite lit_modulus. unfold normal.
  pose proof (mul_canonical (x <? 0) false
                (Z.to_pos (significand x)) 4503599627370496
                (exponent x e) (-21) (significand x) 52) as H.
  replace (exponent x e + -21 + 52) with (exponent x (e + 31)) in H
    by (unfold exponent; lia).
  rewrite xorb_false_r in H.
  apply H; [apply normal_canonical; assumption | lia | ].
  rewrite significand_to_pos by assumption. reflexivity.
Qed.

Lemma div_eucl_exact (a b : Z) : 0 < b -> Z.div_eucl (a * b) b = (a, 0).
Proof.
  intros Hb.
  pose proof (Z.div_mul a b ltac:(lia)) as Hq.
  pose proof (Z.mod_mul a b ltac:(lia)) as Hr.
  unfold Z.div, Z.modulo in Hq, Hr.
  destruct (Z.div_eucl (a * b) b) as [q r]. congruence.
Qed.

(** Dividing by [2^31] only moves the exponent. *)
Lemma div_normal_modulus (x e : Z) :
  small x -> -900 <= e <= 900 ->
  div (normal x e) (lit 2147483648) = normal x (e - 31).
Proof.
  intros Hx He. rewrite lit_modulus. unfold normal, div, SFdiv.
  pose proof (small_digits x Hx) as Hd.
  pose proof (normal_canonical x (e - 31) Hx ltac:(lia)) as Hc.
  pose proof (normal_canonical x e Hx ltac:(lia)) as Hc0.
  assert (SFdiv_core_binary prec emax (Zpos (Z.to_pos (significand x)))
            (exponent x e) 4503599627370496 (-21)
          = (significand x * 2 ^ 1, exponent x (e - 31) - 1, loc_Exact)) as Hcore.
  { unfold SFdiv_core_binary.
    rewrite significand_to_pos, (canonical_digits _ _ Hc0) by assumption.
    change (Zdigits2 4503599627370496) with 53.
    replace (Z.min (fexp prec emax (53 + exponent x e - (53 + -21)))
               (exponent x e - -21))
      with (exponent x e - 32)
      by (unfold exponent, fexp, emin, prec, emax; lia).
    replace (exponent x e - -21 - (exponent x e - 32)) with 53 by lia.
    cbv iota beta. rewrite Z.shiftl_mul_pow2 by lia.
    replace (significand x * 2 ^ 53)
      with (significand x * 2 ^ 1 * 4503599627370496)
      by (change (2 ^ 53) with (2 ^ 1 * 4503599627370496); ring).
    rewrite div_eucl_exact by lia.
    f_equal. f_equal. unfold exponent. lia. }
  rewrite Hcore, xorb_false_r.
  apply binary_round_aux_exact; [assumption | lia].
Qed.

(** *** Sums and differences of integers *)

Lemma lit_zero : lit 0 = S754_zero false.
Proof. reflexivity. Qed.

Lemma shl_align_fst (m : positive) (t ez : Z) :
  ez <= t -> Zpos (fst (shl_align m t ez)) = Zpos m * 2 ^ (t - ez).
Proof.
  intros Hle. unfold shl_align.
  destruct (ez - t) as [ | d | d] eqn:Hd; try lia; cbn [fst].
  - replace (t - ez) with 0 by lia. change (2 ^ 0) with 1. lia.
  - rewrite Pos_iter_xO. f_equal. f_equal. lia.
Qed.

Lemma aligned_integer (x ez : Z) :
  small x -> ez <= exponent x 0 ->
  cond_Zopp (x <? 0)
    (Zpos (fst (shl_align (Z.to_pos (significand x)) (exponent x 0) ez)))
  = x * 2 ^ (- ez).
Proof.
  intros Hx Hle. pose proof (small_digits x Hx) as Hd.
  rewrite shl_align_fst by assumption.
  pose proof (signed_significand x Hx) as Hs.
  assert (2 ^ (- ez) = 2 ^ (prec - Zdigits2 x) * 2 ^ (exponent x 0 - ez)) as ->.
  { unfold exponent, prec in *. rewrite <- pow2_split by lia. f_equal. lia. }
  rewrite Z.mul_assoc, <- Hs.
  unfold cond_Zopp. destruct (x <? 0); lia.
Qed.

Lemma exponent_integer (x : Z) : small x -> -52 <= exponent x 0 <= 0.
Proof. intros Hx. pose proof (small_digits x Hx). unfold exponent, prec. lia. Qed.

Lemma small_or_zero (x : Z) : Z.abs x < 2 ^ 53 -> x = 0 \/ small x.
Proof. unfold small. lia. Qed.

Lemma add_lit (x y : Z) :
  Z.abs x < 2 ^ 53 -> Z.abs y < 2 ^ 53 -> Z.abs (x + y) < 2 ^ 53 ->
  add (lit x) (lit y) = lit (x + y).
Proof.
  intros Hx Hy Hxy.
  destruct (small_or_zero x Hx) as [-> | Sx].
  { destruct (small_or_zero y Hy) as [-> | Sy]; [reflexivity | ].
    rewrite Z.add_0_l, lit_zero, (lit_small y Sy). reflexivity. }
  destruct (small_or_zero y Hy) as [-> | Sy].
  { rewrite Z.add_0_r, lit_zero, (lit_small x Sx). reflexivity. }
  rewrite (lit_small x Sx), (lit_small y Sy).
  pose proof (exponent_integer x Sx). pose proof (exponent_integer y Sy).
  unfold normal, add, SFadd.
  rewrite !aligned_integer by (assumption || lia).
  rewrite <- Z.mul_add_distr_r.
  destruct (small_or_zero _ Hxy) as [-> | Sxy]; [reflexivity | ].
  rewrite binary_normalize_scaled by (assumption || lia).
  rewrite (lit_small _ Sxy). f_equal. lia.
Qed.

Lemma sub_lit (x y : Z) :
  Z.abs x < 2 ^ 53 -> Z.abs y < 2 ^ 53 -> Z.abs (x - y) < 2 ^ 53 ->
  sub (lit x) (lit y) = lit (x - y).
Proof.
  intros Hx Hy Hxy.
  destruct (small_or_zero x Hx) as [-> | Sx].
  { destruct (small_or_zero y Hy) as [-> | Sy]; [reflexivity | ].
    assert (small (- y)) as Sy' by (unfold small in *; lia).
    rewrite Z.sub_0_l, lit_zero, (lit_small y Sy), (lit_small _ Sy').
    unfold normal, sub, SFsub, significand, exponent.
    rewrite Z.abs_opp. destruct Sy.
    replace (Zdigits2 (- y)) with (Zdigits2 y) by (destruct y; reflexivity).
    f_equal. destruct (Z.ltb_spec y 0), (Z.ltb_spec (- y) 0); try reflexivity; lia. }
  destruct (small_or_zero y Hy) as [-> | Sy].
  { rewrite Z.sub_0_r, lit_zero, (lit_small x Sx). reflexivity. }
  rewrite (lit_small x Sx), (lit_small y Sy).
  pose proof (exponent_integer x Sx). pose proof (exponent_integer y Sy).
  unfold normal, sub, SFsub.
  rewrite !aligned_integer by (assumption || lia).
  rewrite <- Z.mul_sub_distr_r.
  destruct (small_or_zero _ Hxy) as [-> | Sxy]; [reflexivity | ].
  rewrite binary_normalize_scaled by (assumption || lia).
  rewrite (lit_small _ Sxy). f_equal. lia.
Qed.

(** *** [Math.floor] *)

Lemma binary_normalize_szero (n e : Z) (s1 s2 : bool) :
  (n = 0 -> s1 = s2) ->
  binary_normalize prec emax n e s1 = binary_normalize prec emax n e s2.
Proof. destruct n; intros H; [rewrite H | | ]; reflexivity. Qed.

Lemma floor_normal (n e : Z) :
  small n -> -900 <= e <= 0 ->
  floor (normal n e) = lit (n / 2 ^ (- e)).
Proof.
  intros Hn He. pose proof (small_digits n Hn) as Hd.
  unfold floor. unfold normal at 1.
  destruct (Z.leb_spec 0 (exponent n e)) as [Hge | Hlt].
  - assert (e = 0) as -> by (unfold exponent, prec in Hge; lia).
    change (2 ^ (- 0)) with 1. rewrite Z.div_1_r, lit_small by assumption.
    reflexivity.
  - rewrite signed_significand, Z.shiftr_div_pow2 by (assumption || lia).
    assert (2 ^ (- exponent n e) = 2 ^ (- e) * 2 ^ (prec - Zdigits2 n)) as ->.
    { unfold exponent, prec in *. rewrite <- pow2_split by lia. f_equal. lia. }
    pose proof (pow2_pos (- e) ltac:(lia)).
    pose proof (pow2_pos (prec - Zdigits2 n) ltac:(unfold prec; lia)).
    rewrite Z.div_mul_cancel_r by lia.
    unfold lit. apply binary_normalize_szero.
    intros Hz. apply Z.ltb_ge.
    destruct (Z_lt_le_dec n 0) as [Hneg | ]; [ | assumption].
    pose proof (Z.div_lt_upper_bound n (2 ^ (- e)) 0 ltac:(lia) ltac:(lia)). lia.
Qed.

(** *** The remainder modulo [2^31] of an integral number *)

Lemma cond_Zopp_mul (s : bool) (a b : Z) : cond_Zopp s (a * b) = cond_Zopp s a * b.
Proof. destruct s; simpl; lia. Qed.

Lemma cond_Zopp_rem (s : bool) (a b : Z) :
  cond_Zopp s (Z.rem a b) = Z.rem (cond_Zopp s a) b.
Proof. destruct s; simpl; [symmetry; apply Z.rem_opp_l' | reflexivity]. Qed.

Lemma rem_small (a : Z) :
  Z.rem a 2147483648 <> 0 -> small (Z.rem a 2147483648).
Proof.
  intros Hne. pose proof (Z.rem_bound_abs a 2147483648 ltac:(lia)) as Hb.
  unfold small. change (2 ^ 53) with 9007199254740992. lia.
Qed.

Lemma integer_aligned (m : positive) (e : Z) :
  is_integer (S754_finite false m e) = true ->
  Z.shiftl (Zpos m) (e - Z.min e (-21))
  = to_Z (S754_finite false m e) * 2 ^ (- Z.min e (-21)).
Proof.
  unfold is_integer, to_Z, cond_Zopp. intros Hi.
  rewrite Z.shiftl_mul_pow2 by lia.
  destruct (Z.leb_spec 0 e) as [Hge | Hlt].
  - rewrite <- Z.mul_assoc, <- pow2_split by lia. f_equal; try (f_equal; lia).
  - cbn [orb] in Hi. apply Z.eqb_eq in Hi.
    pose proof (pow2_pos (- e) ltac:(lia)) as Hp.
    pose proof (Z.div_mod (Zpos m) (2 ^ (- e)) ltac:(lia)) as Hdm.
    rewrite Hi, Z.add_0_r in Hdm.
    rewrite Hdm at 1.
    rewrite (Z.mul_comm (2 ^ (- e))), <- Z.mul_assoc, <- pow2_split by lia.
    f_equal; try (f_equal; lia).
Qed.

Lemma rem_modulus (x : number) :
  is_integer x = true ->
  rem x (lit 2147483648)
  = if Z.rem (to_Z x) 2147483648 =? 0 then S754_zero (sign x)
    else lit (Z.rem (to_Z x) 2147483648).
Proof.
  destruct x as [s | s | | s m e]; try discriminate; intros Hi.
  - reflexivity.
  - rewrite lit_modulus. unfold rem. cbn [sign].
    set (e0 := Z.min e (-21)).
    pose proof (pow2_pos (- e0) ltac:(lia)) as Hp.
    change (is_integer (S754_finite false m e) = true) in Hi.
    pose proof (integer_aligned m e Hi) as Ha. fold e0 in Ha. rewrite Ha.
    assert (Z.shiftl 4503599627370496 (-21 - e0) = 2147483648 * 2 ^ (- e0)) as ->.
    { rewrite Z.shiftl_mul_pow2 by lia.
      replace (- e0) with (21 + (-21 - e0)) by lia.
      rewrite pow2_split by lia. change (2 ^ 21) with 2097152. lia. }
    rewrite Z.mul_rem_distr_r by lia.
    rewrite cond_Zopp_mul, cond_Zopp_rem.
    change (cond_Zopp s (to_Z (S754_finite false m e)))
      with (to_Z (S754_finite s m e)).
    destruct (Z.eqb_spec (Z.rem (to_Z (S754_finite s m e)) 2147483648) 0) as [H0 | Hne].
    + rewrite H0. reflexivity.
    + rewrite binary_normalize_scaled by (try apply rem_small; try assumption; lia).
      rewrite lit_small by (apply rem_small; assumption).
      f_equal. lia.
Qed.

(** *** Comparing integers *)

Lemma digits_lt (a b : Z) :
  0 < a -> 0 < b -> Zdigits2 a < Zdigits2 b -> a < b.
Proof.
  intros Ha Hb Hd.
  pose proof (Zdigits2_bounds a Ha). pose proof (Zdigits2_bounds b Hb).
  pose proof (Zdigits2_pos a Ha).
  pose proof (pow2_le (Zdigits2 a) (Zdigits2 b - 1) ltac:(lia)). lia.
Qed.

Lemma compare_significand (a b : Z) :
  small a -> small b -> Zdigits2 a = Zdigits2 b ->
  Pos.compare_cont Eq (Z.to_pos (significand a)) (Z.to_pos (significand b))
  = (Z.abs a ?= Z.abs b).
Proof.
  intros Ha Hb Hd. pose proof (small_digits a Ha).
  rewrite Pos.compare_cont_spec.
  assert (forall c, Pos.switch_Eq Eq c = c) as -> by (intros []; reflexivity).
  rewrite <- Z2Pos.inj_compare by (apply significand_pos; assumption).
  unfold significand. rewrite Hd.
  symmetry. apply Zmult_compare_compat_r.
  pose proof (pow2_pos (prec - Zdigits2 b) ltac:(unfold prec; lia)). lia.
Qed.

Lemma compare_lit (a b : Z) :
  Z.abs a < 2 ^ 53 -> Z.abs b < 2 ^ 53 ->
  SFcompare (lit a) (lit b) = Some (a ?= b).
Proof.
  intros Ha Hb.
  destruct (small_or_zero a Ha) as [-> | Sa]; destruct (small_or_zero b Hb) as [-> | Sb].
  - reflexivity.
  - rewrite lit_zero, (lit_small b Sb). unfold normal, SFcompare. destruct Sb.
    destruct (Z.ltb_spec b 0); f_equal; symmetry;
      [apply Z.compare_gt_iff | apply Z.compare_lt_iff]; lia.
  - rewrite lit_zero, (lit_small a Sa). unfold normal, SFcompare. destruct Sa.
    destruct (Z.ltb_spec a 0); f_equal; symmetry;
      [apply Z.compare_lt_iff | apply Z.compare_gt_iff]; lia.
  - rewrite (lit_small a Sa), (lit_small b Sb). unfold normal, SFcompare.
    pose proof (compare_significand a b Sa Sb) as Hs.
    pose proof (digits_lt (Z.abs a) (Z.abs b)) as Hab.
    pose proof (digits_lt (Z.abs b) (Z.abs a)) as Hba.
    rewrite !Zdigits2_abs in Hab, Hba.
    destruct Sa as [Ha0 _], Sb as [Hb0 _].
    unfold exponent.
    destruct (Z.ltb_spec a 0), (Z.ltb_spec b 0); f_equal.
    + destruct (Z.compare_spec (0 + Zdigits2 a - prec) (0 + Zdigits2 b - prec)) as [He | He | He].
      * rewrite Hs by lia. rewrite !Z.abs_neq by lia.
        rewrite Z.compare_opp. symmetry. apply Z.compare_antisym.
      * symmetry. apply Z.compare_gt_iff. lia.
      * symmetry. apply Z.compare_lt_iff. lia.
    + symmetry. apply Z.compare_lt_iff. lia.
    + symmetry. apply Z.compare_gt_iff. lia.
    + destruct (Z.compare_spec (0 + Zdigits2 a - prec) (0 + Zdigits2 b - prec)) as [He | He | He].
      * rewrite Hs by lia. rewrite !Z.abs_eq by lia. reflexivity.
      * symmetry. apply Z.compare_lt_iff. lia.
      * symmetry. apply Z.compare_gt_iff. lia.
Qed.

Lemma ltb_lit (a b : Z) :
  Z.abs a < 2 ^ 53 -> Z.abs b < 2 ^ 53 -> ltb (lit a) (lit b) = (a <? b).
Proof.
  intros Ha Hb. unfold ltb, SFltb. rewrite compare_lit by assumption.
  unfold Z.ltb. destruct (a ?= b); reflexivity.
Qed.

Lemma leb_lit (a b : Z) :
  Z.abs a < 2 ^ 53 -> Z.abs b < 2 ^ 53 -> leb (lit a) (lit b) = (a <=? b).
Proof.
  intros Ha Hb. unfold leb, SFleb. rewrite compare_lit by assumption.
  unfold Z.leb. destruct (a ?= b); reflexivity.
Qed.

Lemma eqb_lit (a b : Z) :
  Z.abs a < 2 ^ 53 -> Z.abs b < 2 ^ 53 -> eqb (lit a) (lit b) = (a =? b).
Proof.
  intros Ha Hb. unfold eqb, SFeqb. rewrite compare_lit by assumption.
  destruct (Z.eqb_spec a b) as [-> | Hne].
  - rewrite Z.compare_refl. reflexivity.
  - destruct (Z.compare_spec a b); [lia | reflexivity | reflexivity].
Qed.

(** *** Integers are integral *)

Lemma is_integer_lit (n : Z) : Z.abs n < 2 ^ 53 -> is_integer (lit n) = true.
Proof.
  intros Hn. destruct (small_or_zero n Hn) as [-> | Sn]; [reflexivity | ].
  rewrite (lit_small n Sn). unfold normal, is_integer.
  pose proof (small_digits n Sn) as Hd.
  destruct (Z.leb_spec 0 (exponent n 0)) as [ | Hlt]; [reflexivity | ].
  cbn [orb]. apply Z.eqb_eq.
  rewrite significand_to_pos by assumption.
  unfold significand, exponent in *.
  replace (- (0 + Zdigits2 n - prec)) with (prec - Zdigits2 n) by lia.
  apply Z.mod_mul. pose proof (pow2_pos (prec - Zdigits2 n) ltac:(lia)). lia.
Qed.

Lemma to_Z_lit (n : Z) : Z.abs n < 2 ^ 53 -> to_Z (lit n) = n.
Proof.
  intros Hn. destruct (small_or_zero n Hn) as [-> | Sn]; [reflexivity | ].
  rewrite (lit_small n Sn). unfold normal, to_Z.
  pose proof (small_digits n Sn) as Hd.
  rewrite significand_to_pos by assumption.
  assert (cond_Zopp (n <? 0) (Z.abs n) = n) as Hsgn.
  { unfold cond_Zopp. destruct (Z.ltb_spec n 0); lia. }
  destruct (Z.leb_spec 0 (exponent n 0)) as [Hge | Hlt].
  - unfold significand, exponent, prec in *.
    replace (0 + Zdigits2 n - 53) with 0 by lia.
    replace (53 - Zdigits2 n) with 0 by lia.
    change (2 ^ 0) with 1. rewrite !Z.mul_1_r. exact Hsgn.
  - unfold significand, exponent in *.
    replace (- (0 + Zdigits2 n - prec)) with (prec - Zdigits2 n) by lia.
    rewrite Z.div_mul; [exact Hsgn | ].
    pose proof (pow2_pos (prec - Zdigits2 n) ltac:(lia)). lia.
Qed.

Lemma sign_lit (n : Z) : Z.abs n < 2 ^ 53 -> sign (lit n) = (n <? 0).
Proof.
  intros Hn. destruct (small_or_zero n Hn) as [-> | Sn]; [reflexivity | ].
  rewrite (lit_small n Sn). reflexivity.
Qed.

Lemma is_finite_lit (n : Z) : Z.abs n < 2 ^ 53 -> is_finite (lit n) = true.
Proof.
  intros Hn. destruct (small_or_zero n Hn) as [-> | Sn]; [reflexivity | ].
  rewrite (lit_small n Sn). reflexivity.
Qed.

(** The product of two non-negative integers, exact below [2^53]. *)
Lemma mul_lit (x y : Z) :
  0 <= x < 2 ^ 53 -> 0 <= y < 2 ^ 53 -> x * y < 2 ^ 53 ->
  mul (lit x) (lit y) = lit (x * y).
Proof.
  intros Hx Hy Hxy.
  destruct (Z.eq_dec x 0) as [-> | Hx0].
  { rewrite Z.mul_0_l. destruct (Z.eq_dec y 0) as [-> | Hy0]; [reflexivity | ].
    rewrite lit_zero, lit_small by (unfold small; lia).
    unfold mul, SFmul, normal.
    replace (y <? 0) with false by (symmetry; apply Z.ltb_ge; lia). reflexivity. }
  destruct (Z.eq_dec y 0) as [-> | Hy0].
  { rewrite Z.mul_0_r, lit_zero, lit_small by (unfold small; lia).
    unfold mul, SFmul, normal.
    replace (x <? 0) with false by (symmetry; apply Z.ltb_ge; lia). reflexivity. }
  assert (small x) as Sx by (unfold small; lia).
  assert (small y) as Sy by (unfold small; lia).
  assert (small (x * y)) as Sxy by (unfold small; nia).
  rewrite (lit_small x Sx), (lit_small y Sy), (lit_small _ Sxy).
  rewrite mul_normal by (assumption || lia). reflexivity.
Qed.

Lemma add_zero_lit (b : bool) (n : Z) :
  Z.abs n < 2 ^ 53 -> add (S754_zero b) (lit n) = lit n.
Proof.
  intros Hn. destruct (small_or_zero n Hn) as [-> | Sn].
  - destruct b; reflexivity.
  - rewrite (lit_small n Sn). reflexivity.
Qed.

(** ** Rounding to nearest in the normal range *)

Lemma round_nearest_even_cases (m : Z) (l : location) :
  round_nearest_even m l = m \/ round_nearest_even m l = m + 1.
Proof.
  destruct l as [ | [ | | ]]; cbn [round_nearest_even]; auto.
  destruct (Z.even m); auto.
Qed.

Lemma shr_fexp_m (M E k : Z) :
  0 < M -> k = Zdigits2 M - 53 -> 0 <= k -> -1074 <= E + k ->
  exists mrs, shr_fexp prec emax M E loc_Exact = (mrs, E + k)
              /\ shr_m mrs = M / 2 ^ k.
Proof.
  intros HM Hk Hk0 HE. unfold shr_fexp.
  rewrite (fexp_normal _ (E + k)) by lia.
  replace (E + k - E) with k by lia.
  unfold shr. cbn [shr_record_of_loc].
  destruct k as [ | p | p]; [ | | lia].
  - eexists. split; [rewrite Z.add_0_r; reflexivity | ].
    cbn [shr_m]. change (2 ^ 0) with 1. rewrite Z.div_1_r. reflexivity.
  - eexists. split; [reflexivity | ].
    rewrite iter_shr_1_m by (cbn [shr_m]; lia). reflexivity.
Qed.

Lemma quotient_bounds (M k : Z) :
  0 < M -> k = Zdigits2 M - 53 -> 0 <= k -> 2 ^ 52 <= M / 2 ^ k < 2 ^ 53.
Proof.
  intros HM Hk Hk0. pose proof (Zdigits2_bounds M HM) as Hb.
  pose proof (pow2_pos k Hk0) as Hp.
  replace (Zdigits2 M - 1) with (k + 52) in Hb by lia.
  replace (Zdigits2 M) with (k + 53) in Hb by lia.
  rewrite !pow2_split in Hb by lia. split.
  - apply Z.div_le_lower_bound; lia.
  - apply Z.div_lt_upper_bound; lia.
Qed.

(** The result of rounding a significand of at least 53 bits: the
    truncated significand or its successor, renormalised when the
    successor is [2^53]. *)
Lemma binary_round_aux_rounded (s : bool) (M E k : Z) :
  0 < M -> k = Zdigits2 M - 53 -> 0 <= k -> -1074 <= E + k <= 970 ->
  exists m1,
    (m1 = M / 2 ^ k \/ m1 = M / 2 ^ k + 1)
    /\ binary_round_aux prec emax s M E loc_Exact
       = if m1 <? 2 ^ 53 then S754_finite s (Z.to_pos m1) (E + k)
         else S754_finite s (Z.to_pos (2 ^ 52)) (E + k + 1).
Proof.
  intros HM Hk Hk0 HE.
  destruct (shr_fexp_m M E k HM Hk Hk0 ltac:(lia)) as [mrs [Hshr Hm]].
  pose proof (quotient_bounds M k HM Hk Hk0) as Hq.
  unfold binary_round_aux. rewrite Hshr.
  set (m1 := round_nearest_even (shr_m mrs) (loc_of_shr_record mrs)).
  exists m1. split.
  { rewrite <- Hm. apply round_nearest_even_cases. }
  assert (2 ^ 52 <= m1 <= 2 ^ 53) as Hm1.
  { destruct (round_nearest_even_cases (shr_m mrs) (loc_of_shr_record mrs)) as [H1 | H1];
      fold m1 in H1; rewrite H1, Hm; lia. }
  destruct (Z.ltb_spec m1 (2 ^ 53)) as [Hlt | Hge].
  - assert (canonical m1 (E + k)) as Hc by (split; lia).
    pose proof (shr_fexp_exact m1 (E + k) 0 Hc (Z.le_refl 0)) as H0.
    rewrite Z.mul_1_r, Z.sub_0_r in H0. rewrite H0. cbn [shr_m].
    destruct m1 as [ | m1 | m1]; try (change (2 ^ 52) with 4503599627370496 in Hm1; lia).
    replace (E + k <=? emax - prec) with true; [reflexivity | ].
    symmetry. apply Z.leb_le. unfold emax, prec. lia.
  - assert (m1 = 2 ^ 52 * 2 ^ 1) as -> by (change (2 ^ 52 * 2 ^ 1) with (2 ^ 53); lia).
    assert (canonical (2 ^ 52) (E + k + 1)) as Hc
        by (split; [change (2 ^ 52) with 4503599627370496;
                    change (2 ^ 53) with 9007199254740992 | ]; lia).
    pose proof (shr_fexp_exact (2 ^ 52) (E + k + 1) 1 Hc ltac:(lia)) as H1.
    replace (E + k + 1 - 1) with (E + k) in H1 by lia. rewrite H1. cbn [shr_m].
    change (2 ^ 52) with 4503599627370496.
    replace (E + k + 1 <=? emax - prec) with true; [reflexivity | ].
    symmetry. apply Z.leb_le. unfold emax, prec. lia.
Qed.

Lemma floor_canonical (s : bool) (q t : Z) :
  canonical q t -> t <= 0 ->
  floor (S754_finite s (Z.to_pos q) t) = lit (cond_Zopp s q / 2 ^ (- t)).
Proof.
  intros Hc Ht. pose proof (canonical_pos q t Hc) as Hq.
  pose proof (canonical_digits q t Hc) as Hd. destruct Hc as [Hb _].
  unfold floor.
  destruct (Z.leb_spec 0 t) as [Hge | Hlt].
  - assert (t = 0) as -> by lia. change (2 ^ (- 0)) with 1. rewrite Z.div_1_r.
    assert (small (cond_Zopp s q)) as Sq by (unfold small; destruct s; simpl; lia).
    rewrite (lit_small _ Sq). unfold normal, significand, exponent, prec.
    assert (Zdigits2 (cond_Zopp s q) = 53) as ->
        by (rewrite <- Hd; destruct s, q; reflexivity).
    change (2 ^ (53 - 53)) with 1. rewrite Z.mul_1_r. f_equal.
    + destruct s; simpl; symmetry; [apply Z.ltb_lt | apply Z.ltb_ge]; lia.
    + f_equal. destruct s; simpl; lia.
  - rewrite Z2Pos.id, Z.shiftr_div_pow2 by lia.
    unfold lit. apply binary_normalize_szero.
    intros H0. destruct s; [exfalso | reflexivity].
    pose proof (pow2_pos (- t) ltac:(lia)).
    pose proof (Z.div_lt_upper_bound (cond_Zopp true q) (2 ^ (- t)) 0 ltac:(lia)
                  ltac:(simpl; lia)). lia.
Qed.

(** ** Integral numbers stay integral under rounding *)

Lemma pow2_divide (a b : Z) : 0 <= a <= b -> (2 ^ a | 2 ^ b).
Proof.
  intros H. exists (2 ^ (b - a)). rewrite <- pow2_split by lia. f_equal. lia.
Qed.

Lemma divide_mul_mul (a b c d : Z) : (a | b) -> (c | d) -> (a * c | b * d).
Proof. intros [x ->] [y ->]. exists (x * y). ring. Qed.

Lemma is_integer_finite (s : bool) (m : positive) (e : Z) :
  is_integer (S754_finite s m e) = true <-> integral (Zpos m) e.
Proof.
  unfold is_integer, integral. split.
  - intros H. apply orb_true_iff in H. destruct H as [H | H].
    + left. apply Z.leb_le. assumption.
    + destruct (Z_le_gt_dec 0 e) as [ | Hneg]; [left; assumption | right].
      apply Z.eqb_eq in H. apply Z.mod_divide; [ | assumption].
      pose proof (pow2_pos (- e) ltac:(lia)). lia.
  - intros [H | H]; apply orb_true_iff.
    + left. apply Z.leb_le. assumption.
    + destruct (Z_le_gt_dec 0 e) as [ | Hneg]; [left; apply Z.leb_le; assumption | right].
      apply Z.eqb_eq. apply Z.mod_divide; [ | assumption].
      pose proof (pow2_pos (- e) ltac:(lia)). lia.
Qed.

Lemma integral_mul (m1 e1 m2 e2 : Z) :
  integral m1 e1 -> integral m2 e2 -> integral (m1 * m2) (e1 + e2).
Proof.
  unfold integral. intros H1 H2.
  destruct (Z_le_gt_dec 0 (e1 + e2)) as [ | Hneg]; [left; assumption | right].
  destruct (Z_le_gt_dec 0 e1) as [He1 | He1], (Z_le_gt_dec 0 e2) as [He2 | He2]; try lia.
  - destruct H2 as [ | H2]; [lia | ].
    apply Z.divide_mul_r. apply Z.divide_trans with (2 ^ (- e2)); [ | assumption].
    apply pow2_divide. lia.
  - destruct H1 as [ | H1]; [lia | ].
    apply Z.divide_mul_l. apply Z.divide_trans with (2 ^ (- e1)); [ | assumption].
    apply pow2_divide. lia.
  - destruct H1 as [ | H1]; [lia | ]. destruct H2 as [ | H2]; [lia | ].
    replace (- (e1 + e2)) with (- e1 + - e2) by lia.
    rewrite pow2_split by lia. apply divide_mul_mul; assumption.
Qed.

(** Moving the exponent down by [j] while scaling the significand up. *)
Lemma integral_shift (m e j : Z) :
  0 <= j -> integral m e -> integral (m * 2 ^ j) (e - j).
Proof.
  unfold integral. intros Hj H.
  destruct (Z_le_gt_dec 0 (e - j)) as [ | Hneg]; [left; assumption | right].
  destruct (Z_le_gt_dec 0 e) as [He | He].
  - apply Z.divide_mul_r, pow2_divide. lia.
  - destruct H as [ | H]; [lia | ].
    replace (- (e - j)) with (- e + j) by lia.
    rewrite pow2_split by lia. apply divide_mul_mul; [assumption | apply Z.divide_refl].
Qed.

Lemma shr_integral (M E n : Z) :
  0 <= M -> integral M E ->
  let '(mrs, E') := shr (Build_shr_record M false false) E n in
  integral (shr_m mrs) E' /\ 0 <= shr_m mrs
  /\ (E' < 0 -> loc_of_shr_record mrs = loc_Exact).
Proof.
  intros HM Hi. unfold shr.
  destruct n as [ | p | p]; try (cbn [shr_m loc_of_shr_record]; tauto).
  destruct (Z_le_gt_dec 0 (E + Zpos p)) as [Hge | Hneg].
  - split; [left; assumption | ]. split; [ | lia].
    rewrite iter_shr_1_m by (cbn [shr_m]; assumption).
    apply div_pow2_nonneg; cbn [shr_m]; lia.
  - destruct Hi as [ | [c Hc]]; [lia | ].
    assert (M = c * 2 ^ (- E - Zpos p) * 2 ^ Zpos p) as ->.
    { rewrite Hc, <- Z.mul_assoc, <- pow2_split by lia. f_equal. f_equal. lia. }
    rewrite iter_shr_1_exact. cbn [shr_m loc_of_shr_record].
    split; [ | split; [ | reflexivity]].
    + right. replace (- (E + Zpos p)) with (- E - Zpos p) by lia.
      apply Z.divide_factor_r.
    + pose proof (pow2_pos (- E - Zpos p) ltac:(lia)).
      pose proof (pow2_pos (Zpos p) ltac:(lia)). nia.
Qed.

Lemma binary_round_aux_integral (s : bool) (M E : Z) :
  0 <= M -> integral M E ->
  integer_or_infinite (binary_round_aux prec emax s M E loc_Exact).
Proof.
  intros HM Hi. unfold binary_round_aux, shr_fexp.
  cbn [shr_record_of_loc].
  pose proof (shr_integral M E (fexp prec emax (Zdigits2 M + E) - E) HM Hi) as H1.
  destruct (shr (Build_shr_record M false false) E
              (fexp prec emax (Zdigits2 M + E) - E)) as [mrs1 e1].
  destruct H1 as [Hi1 [Hm1 Hl1]].
  set (m1 := round_nearest_even (shr_m mrs1) (loc_of_shr_record mrs1)).
  assert (0 <= m1 /\ integral m1 e1) as [Hm1' Hi1'].
  { destruct (Z_le_gt_dec 0 e1) as [Hge | Hneg].
    - split; [ | left; assumption].
      destruct (round_nearest_even_cases (shr_m mrs1) (loc_of_shr_record mrs1)) as [H | H];
        fold m1 in H; lia.
    - unfold m1. rewrite Hl1 by lia. cbn [round_nearest_even]. tauto. }
  pose proof (shr_integral m1 e1 (fexp prec emax (Zdigits2 m1 + e1) - e1) Hm1' Hi1') as H2.
  destruct (shr (Build_shr_record m1 false false) e1
              (fexp prec emax (Zdigits2 m1 + e1) - e1)) as [mrs2 e2].
  destruct H2 as [Hi2 [Hm2 _]].
  destruct (shr_m mrs2) as [ | m | m]; [left; reflexivity | | lia].
  destruct (e2 <=? emax - prec).
  - left. apply is_integer_finite. assumption.
  - right. eexists. reflexivity.
Qed.

Lemma binary_normalize_integral (n e : Z) (sz : bool) :
  integral n e -> integer_or_infinite (binary_normalize prec emax n e sz).
Proof.
  assert (forall s (m : positive) e,
             integral (Zpos m) e ->
             integer_or_infinite (binary_round prec emax s m e)) as Hr.
  { intros s m e0 Hi. unfold binary_round, shl_align.
    destruct (fexp prec emax (Zpos (digits2_pos m) + e0) - e0) as [ | d | d] eqn:Hd;
      try (apply binary_round_aux_integral; [lia | assumption]).
    apply binary_round_aux_integral; [lia | ].
    rewrite Pos_iter_xO.
    replace (fexp prec emax (Zpos (digits2_pos m) + e0)) with (e0 - Zpos d) by lia.
    apply integral_shift; [lia | assumption]. }
  intros Hi. unfold binary_normalize. destruct n as [ | m | m].
  - left. reflexivity.
  - apply Hr. assumption.
  - apply Hr. destruct Hi as [ | Hi]; [left; assumption | right].
    apply Z.divide_opp_r in Hi. exact Hi.
Qed.

Lemma mul_integral (x y : number) :
  is_integer x = true -> is_integer y = true -> integer_or_infinite (mul x y).
Proof.
  destruct x as [sx | sx | | sx mx ex]; try discriminate;
    destruct y as [sy | sy | | sy my ey]; try discriminate; intros Hx Hy;
    try (left; reflexivity).
  unfold mul, SFmul. apply binary_round_aux_integral; [lia | ].
  rewrite Pos2Z.inj_mul.
  apply integral_mul; [apply (is_integer_finite sx) | apply (is_integer_finite sy)]; assumption.
Qed.

Lemma aligned_integral (s : bool) (m : positive) (e ez : Z) :
  ez <= e -> integral (Zpos m) e ->
  integral (cond_Zopp s (Zpos (fst (shl_align m e ez)))) ez.
Proof.
  intros Hle Hi. rewrite shl_align_fst by assumption.
  pose proof (integral_shift (Zpos m) e (e - ez) ltac:(lia) Hi) as H.
  replace (e - (e - ez)) with ez in H by lia.
  destruct s; cbn [cond_Zopp]; [ | assumption].
  destruct H as [ | H]; [left; assumption | right].
  apply Z.divide_opp_r. assumption.
Qed.

Lemma add_integral (x y : number) :
  integer_or_infinite x -> is_integer y = true -> integer_or_infinite (add x y).
Proof.
  intros [Hx | [s ->]] Hy.
  - destruct x as [sx | sx | | sx mx ex]; try discriminate;
      destruct y as [sy | sy | | sy my ey]; try discriminate.
    + left. destruct sx, sy; reflexivity.
    + left. assumption.
    + left. assumption.
    + unfold add, SFadd. apply binary_normalize_integral.
      apply is_integer_finite in Hx, Hy.
      pose proof (aligned_integral sx mx ex (Z.min ex ey) ltac:(lia) Hx) as H1.
      pose proof (aligned_integral sy my ey (Z.min ex ey) ltac:(lia) Hy) as H2.
      destruct H1 as [ | H1]; [left; assumption | ].
      destruct H2 as [ | H2]; [left; assumption | ].
      right. apply Z.divide_add_r; assumption.
  - right. destruct y as [sy | sy | | sy my ey]; try discriminate;
      exists s; reflexivity.
Qed.

(** ** Finite results *)

Lemma binary_round_finite (s : bool) (m : positive) (e : Z) :
  -900 <= e <= 700 -> Zpos m < 2 ^ 200 ->
  is_finite (binary_round prec emax s m e) = true.
Proof.
  intros He Hm.
  pose proof (Zdigits2_bounds (Zpos m) ltac:(lia)) as Hb.
  pose proof (Zdigits2_pos (Zpos m) ltac:(lia)) as Hd1.
  pose proof (Zdigits2_le (Zpos m) 200 ltac:(lia) ltac:(lia) Hm) as Hd200.
  destruct (Z_le_gt_dec (Zdigits2 (Zpos m)) 53) as [Hle | Hgt].
  - set (j := 53 - Zdigits2 (Zpos m)).
    assert (canonical (Zpos m * 2 ^ j) (e - j)) as Hc.
    { split; [ | unfold j; lia].
      pose proof (pow2_pos j ltac:(unfold j; lia)).
      replace (2 ^ 52) with (2 ^ (Zdigits2 (Zpos m) - 1 + j))
        by (f_equal; unfold j; lia).
      replace (2 ^ 53) with (2 ^ (Zdigits2 (Zpos m) + j))
        by (f_equal; unfold j; lia).
      rewrite !pow2_split by (unfold j; lia). nia. }
    pose proof (binary_round_up s m (Zpos m * 2 ^ j) (e - j) j Hc
                  ltac:(unfold j; lia) eq_refl) as H.
    replace (e - j + j) with e in H by lia. rewrite H. reflexivity.
  - unfold binary_round, shl_align.
    change (Zpos (digits2_pos m)) with (Zdigits2 (Zpos m)).
    rewrite (fexp_normal _ (e + (Zdigits2 (Zpos m) - 53))) by lia.
    destruct (e + (Zdigits2 (Zpos m) - 53) - e) as [ | d | d] eqn:Hd; try lia.
    destruct (binary_round_aux_rounded s (Zpos m) e (Zdigits2 (Zpos m) - 53)
                ltac:(lia) eq_refl ltac:(lia) ltac:(lia)) as [m1 [_ Hr]].
    rewrite Hr. destruct (m1 <? 2 ^ 53); reflexivity.
Qed.

Lemma binary_normalize_finite (n e : Z) (sz : bool) :
  -900 <= e <= 700 -> Z.abs n < 2 ^ 200 ->
  is_finite (binary_normalize prec emax n e sz) = true.
Proof.
  intros He Hn. unfold binary_normalize.
  destruct n as [ | m | m]; [reflexivity | | ];
    apply binary_round_finite; (assumption || lia).
Qed.

(** The product of two nonzero integers below [2^53] in magnitude is a
    finite number with a small exponent. *)
Lemma mul_normal_finite (x y : Z) :
  small x -> small y ->
  exists m e,
    mul (normal x 0) (normal y 0) = S754_finite (xorb (x <? 0) (y <? 0)) m e
    /\ Zpos m < 2 ^ 53 /\ -106 <= e <= 54.
Proof.
  intros Sx Sy.
  pose proof (significand_bounds x Sx) as Hqx.
  pose proof (significand_bounds y Sy) as Hqy.
  pose proof (small_digits x Sx) as Hdx. pose proof (small_digits y Sy) as Hdy.
  assert (Hp53 : 2 ^ 53 = 9007199254740992) by reflexivity.
  assert (Hp52 : 2 ^ 52 = 4503599627370496) by reflexivity.
  unfold normal, mul, SFmul.
  rewrite Pos2Z.inj_mul, !significand_to_pos by assumption.
  set (M := significand x * significand y).
  assert (2 ^ 104 <= M < 2 ^ 106) as HM.
  { change (2 ^ 104) with (2 ^ 52 * 2 ^ 52). change (2 ^ 106) with (2 ^ 53 * 2 ^ 53).
    unfold M. rewrite Hp52, Hp53 in *. nia. }
  assert (0 < M) as HM0 by (pose proof (pow2_pos 104); lia).
  assert (52 <= Zdigits2 M - 53 <= 53) as Hk.
  { pose proof (Zdigits2_bounds M HM0) as Hb. pose proof (Zdigits2_pos M HM0). split.
    - destruct (Z_le_gt_dec 105 (Zdigits2 M)) as [ | Hgt]; [lia | ].
      pose proof (pow2_le (Zdigits2 M) 104 ltac:(lia)). lia.
    - pose proof (Zdigits2_le M 106 HM0 ltac:(lia) ltac:(lia)). lia. }
  destruct (binary_round_aux_rounded (xorb (x <? 0) (y <? 0)) M
              (exponent x 0 + exponent y 0) (Zdigits2 M - 53)
              HM0 eq_refl ltac:(lia) ltac:(unfold exponent, prec; lia))
    as [m1 [Hm1 Hres]].
  pose proof (quotient_bounds M (Zdigits2 M - 53) HM0 eq_refl ltac:(lia)) as Hq.
  rewrite Hres. destruct (Z.ltb_spec m1 (2 ^ 53)) as [Hlt | Hge].
  - do 2 eexists. split; [reflexivity | ]. split.
    + rewrite Z2Pos.id by lia. assumption.
    + unfold exponent, prec. lia.
  - do 2 eexists. split; [reflexivity | ]. split.
    + rewrite Hp52, Hp53. reflexivity.
    + unfold exponent, prec. lia.
Qed.

Lemma add_finite_lit (s : bool) (m : positive) (e c : Z) :
  Zpos m < 2 ^ 53 -> -106 <= e <= 54 -> small c ->
  is_finite (add (S754_finite s m e) (lit c)) = true.
Proof.
  intros Hm He Sc. rewrite (lit_small c Sc).
  pose proof (significand_bounds c Sc) as Hqc.
  pose proof (small_digits c Sc) as Hdc.
  unfold normal, add, SFadd.
  set (tc := exponent c 0). set (ez := Z.min e tc).
  assert (-52 <= tc <= 0) as Htc by (unfold tc, exponent, prec; lia).
  apply binary_normalize_finite; [unfold ez; lia | ].
  rewrite !shl_align_fst by (unfold ez; lia).
  rewrite significand_to_pos by assumption.
  pose proof (pow2_lt (e - ez) 110 ltac:(unfold ez; lia)) as H1.
  pose proof (pow2_lt (tc - ez) 110 ltac:(unfold ez; lia)) as H2.
  pose proof (pow2_pos (e - ez) ltac:(unfold ez; lia)).
  pose proof (pow2_pos (tc - ez) ltac:(unfold ez; lia)).
  assert (2 ^ 200 = 2 ^ 53 * 2 ^ 110 * 2 ^ 37) as -> by reflexivity.
  assert (1 < 2 ^ 37) by reflexivity.
  assert (Z.pos m * 2 ^ (e - ez) < 2 ^ 53 * 2 ^ 110) by nia.
  assert (significand c * 2 ^ (tc - ez) < 2 ^ 53 * 2 ^ 110) by nia.
  pose proof (pow2_pos 53 ltac:(lia)). pose proof (pow2_pos 110 ltac:(lia)).
  assert (2 * (2 ^ 53 * 2 ^ 110) <= 2 ^ 53 * 2 ^ 110 * 2 ^ 37) by nia.
  destruct s, (c <? 0); cbn [cond_Zopp]; lia.
Qed.

(** ** Signs *)

Lemma binary_round_aux_sign (M E : Z) (l : location) :
  sign (binary_round_aux prec emax false M E l) = false.
Proof.
  unfold binary_round_aux.
  destruct (shr_fexp prec emax M E l) as [mrs1 e1].
  destruct (shr_fexp prec emax _ e1 loc_Exact) as [mrs2 e2].
  destruct (shr_m mrs2); [reflexivity | | reflexivity].
  destruct (e2 <=? emax - prec); reflexivity.
Qed.

Lemma binary_normalize_sign (n e : Z) :
  0 <= n -> sign (binary_normalize prec emax n e false) = false.
Proof.
  intros Hn. destruct n as [ | m | m]; [reflexivity | | lia].
  unfold binary_normalize, binary_round.
  destruct (shl_align m e _) as [mz ez]. apply binary_round_aux_sign.
Qed.

Lemma add_sign_nonneg (m1 m2 : positive) (e1 e2 : Z) :
  sign (add (S754_finite false m1 e1) (S754_finite false m2 e2)) = false.
Proof. unfold add, SFadd. apply binary_normalize_sign. cbn [cond_Zopp]. lia. Qed.

Lemma to_Z_nonneg (x : number) : sign x = false -> 0 <= to_Z x.
Proof.
  destruct x as [s | s | | s m e]; cbn [sign to_Z]; try lia.
  intros ->. cbn [cond_Zopp].
  destruct (Z.leb_spec 0 e) as [Hge | Hlt].
  - pose proof (pow2_pos e Hge). nia.
  - apply Z.div_pos; [lia | apply pow2_pos; lia].
Qed.

End Binary64.

(** * The generator on integers *)

Module Generator.
Import Number Binary64 Random.

Lemma next_range (s : Z) : 0 <= Exact.next s < 2147483648.
Proof. unfold Exact.next, Exact.modulus. apply Z.mod_pos_bound. lia. Qed.


Lemma value_floor_div (s min max : Z) :
  Exact.value s min max = s * (max - min) / 2147483648 + min.
Proof.
  unfold Exact.value, Exact.modulus. f_equal.
  unfold Qdiv, Qinv, Qmult, inject_Z, Qfloor. cbn [Qnum Qden].
  rewrite Z.mul_1_r. reflexivity.
Qed.

(** The assignment computes the exact successor whenever the product and
    the sum stay below [2^53]. *)
Lemma assign_state_exact (s : Z) :
  0 <= s -> s * 1664525 + 1013904223 < 2 ^ 53 ->
  assign_state (lit s) = lit (Exact.next s).
Proof.
  intros Hs Hb. unfold assign_state.
  rewrite mul_lit by (change (2 ^ 53) with 9007199254740992 in *; lia).
  rewrite add_lit by (change (2 ^ 53) with 9007199254740992 in *; lia).
  assert (Z.abs (s * 1664525 + 1013904223) < 2 ^ 53) as Habs by lia.
  rewrite rem_modulus by (apply is_integer_lit; assumption).
  rewrite to_Z_lit, sign_lit by assumption.
  rewrite Z.rem_mod_nonneg by lia.
  replace (s * 1664525 + 1013904223 <? 0) with false
    by (symmetry; apply Z.ltb_ge; lia).
  unfold Exact.next, Exact.multiplier, Exact.increment, Exact.modulus.
  destruct (Z.eqb_spec ((s * 1664525 + 1013904223) mod 2147483648) 0) as [-> | ];
    reflexivity.
Qed.

Lemma seed_exact_range (s : Z) :
  0 <= s <= Exact.max_exact_seed -> s * 1664525 + 1013904223 < 2 ^ 53.
Proof. unfold Exact.max_exact_seed. change (2 ^ 53) with 9007199254740992. lia. Qed.

(** The returned value is the exact one for a state below [2^31] and
    integer bounds at most [2^22] apart. *)
Lemma return_value_exact (s min max : Z) :
  0 <= s < 2147483648 ->
  Z.abs min <= 2 ^ 52 -> Z.abs max <= 2 ^ 52 -> Z.abs (max - min) <= 2 ^ 22 ->
  return_value (lit s) (lit min) (lit max) = lit (Exact.value s min max).
Proof.
  intros Hs Hmin Hmax Hd.
  change (2 ^ 52) with 4503599627370496 in *. change (2 ^ 22) with 4194304 in *.
  assert (Hp : 2 ^ 53 = 9007199254740992) by reflexivity.
  rewrite value_floor_div. unfold return_value.
  rewrite sub_lit by (rewrite Hp; lia).
  assert (- 4194304 <= s * (max - min) / 2147483648 <= 4194304) as Hq.
  { split.
    - apply Z.div_le_lower_bound; nia.
    - apply Z.div_le_upper_bound; nia. }
  destruct (Z.eq_dec s 0) as [-> | Hs0].
  { rewrite Z.mul_0_l, Z.div_0_l, Z.add_0_l by lia.
    change (lit 0 / lit 2147483648)%js with (S754_zero false).
    destruct (Z.eq_dec (max - min) 0) as [-> | Hd0].
    - change (floor (S754_zero false * lit 0)%js) with (S754_zero false).
      apply add_zero_lit. rewrite Hp. lia.
    - rewrite (lit_small (max - min)) by (unfold small; rewrite Hp; lia).
      unfold normal, mul, SFmul, floor.
      apply add_zero_lit. rewrite Hp. lia. }
  assert (small s) as Ss by (unfold small; rewrite Hp; lia).
  rewrite (lit_small s Ss), div_normal_modulus by (assumption || lia).
  destruct (Z.eq_dec (max - min) 0) as [-> | Hd0].
  { rewrite Z.mul_0_r, Z.div_0_l, Z.add_0_l by lia.
    unfold normal, mul, SFmul. rewrite lit_zero. unfold floor.
    apply add_zero_lit. rewrite Hp. lia. }
  assert (small (max - min)) as Sd by (unfold small; rewrite Hp; lia).
  assert (small (s * (max - min))) as Ssd by (unfold small; rewrite Hp; nia).
  rewrite (lit_small _ Sd), mul_normal by (assumption || lia).
  rewrite floor_normal by (assumption || lia).
  change (2 ^ (- (0 - 31 + 0))) with 2147483648.
  apply add_lit; rewrite Hp; lia.
Qed.

(** The product [state / 2^31 * (max - min)] may be rounded; the rounded
    product stays strictly inside the range, so that the value returned
    is an integer between the bounds. *)
Lemma scaled_product (s d : Z) :
  0 < s < 2147483648 -> small d ->
  exists F,
    floor (normal s (-31) * normal d 0)%js = lit F
    /\ (0 < d -> 0 <= F < d) /\ (d < 0 -> d <= F <= 0).
Proof.
  intros Hs Sd.
  assert (Hp53 : 2 ^ 53 = 9007199254740992) by reflexivity.
  assert (Hp52 : 2 ^ 52 = 4503599627370496) by reflexivity.
  assert (small s) as Ss by (unfold small; rewrite Hp53; lia).
  pose proof (significand_bounds s Ss) as Hqs.
  pose proof (significand_bounds d Sd) as Hqd.
  pose proof (small_digits s Ss) as Hds. pose proof (small_digits d Sd) as Hdd.
  assert (Zdigits2 s <= 31) as Hds31
      by (apply Zdigits2_le; [lia | lia | change (2 ^ 31) with 2147483648; lia]).
  unfold normal, mul, SFmul. cbn [xorb].
  replace (s <? 0) with false by (symmetry; apply Z.ltb_ge; lia). cbn [xorb].
  rewrite Pos2Z.inj_mul, !significand_to_pos by assumption.
  set (M := significand s * significand d).
  assert (2 ^ 104 <= M < 2 ^ 106) as HM.
  { change (2 ^ 104) with (2 ^ 52 * 2 ^ 52). change (2 ^ 106) with (2 ^ 53 * 2 ^ 53).
    unfold M. rewrite Hp52, Hp53 in *. nia. }
  assert (0 < M) as HM0 by (pose proof (pow2_pos 104); lia).
  set (k := Zdigits2 M - 53).
  assert (52 <= k <= 53) as Hk.
  { pose proof (Zdigits2_bounds M HM0) as Hb. pose proof (Zdigits2_pos M HM0).
    unfold k. split.
    - destruct (Z_le_gt_dec 105 (Zdigits2 M)) as [ | Hgt]; [lia | ].
      pose proof (pow2_le (Zdigits2 M) 104 ltac:(lia)). lia.
    - pose proof (Zdigits2_le M 106 HM0 ltac:(lia) ltac:(lia)). lia. }
  set (u := 84 - Zdigits2 s - k).
  set (w := u + (53 - Zdigits2 d)).
  assert (exponent s (-31) + exponent d 0 + k = - w) as He
      by (unfold exponent, prec, w, u; lia).
  destruct (binary_round_aux_rounded (d <? 0) M (exponent s (-31) + exponent d 0) k
              HM0 eq_refl ltac:(lia) ltac:(unfold u, w in *; lia))
    as [m1 [Hm1 Hres]].
  rewrite Hres, He. clear Hres.
  pose proof (quotient_bounds M k HM0 eq_refl ltac:(lia)) as Hq.
  pose proof (pow2_pos k ltac:(lia)) as Hpk.
  pose proof (pow2_pos u ltac:(unfold u; lia)) as Hpu.
  pose proof (pow2_pos w ltac:(unfold w, u; lia)) as Hpw.
  (* the rounded significand is below [|d| * 2^w] *)
  assert (m1 < Z.abs d * 2 ^ w) as Hlt.
  { assert (Z.abs d * 2 ^ w = significand d * 2 ^ u) as ->.
    { unfold w, significand, prec. rewrite pow2_split by (unfold u; lia). ring. }
    assert (significand s * 2 ^ 31 = s * (2 ^ u * 2 ^ k)) as Hs31.
    { unfold significand, prec. rewrite Z.abs_eq by lia.
      rewrite <- Z.mul_assoc, <- !pow2_split by (unfold u; lia).
      f_equal. f_equal. unfold u. lia. }
    pose proof (Z.mul_div_le M (2 ^ k) Hpk) as Hle.
    assert (M / 2 ^ k * 2 ^ 31 <= s * (significand d * 2 ^ u)) as Hq31.
    { apply (Z.mul_le_mono_pos_r _ _ (2 ^ k) Hpk).
      replace (s * (significand d * 2 ^ u) * 2 ^ k)
        with (M * 2 ^ 31) by (unfold M; rewrite (Z.mul_shuffle0 (significand s)), Hs31; ring).
      replace (M / 2 ^ k * 2 ^ 31 * 2 ^ k) with (2 ^ k * (M / 2 ^ k) * 2 ^ 31) by ring.
      apply Z.mul_le_mono_nonneg_r; [change (2 ^ 31) with 2147483648; lia | exact Hle]. }
    assert (s * (significand d * 2 ^ u) <= 2147483647 * (significand d * 2 ^ u)) as Hsx
        by (apply Z.mul_le_mono_nonneg_r; nia).
    assert (4503599627370496 <= significand d * 2 ^ u) by nia.
    change (2 ^ 31) with 2147483648 in Hq31. lia. }
  assert (2 ^ 52 <= m1 <= 2 ^ 53) as Hm1b by lia.
  assert (floor (if m1 <? 2 ^ 53 then S754_finite (d <? 0) (Z.to_pos m1) (- w)
                 else S754_finite (d <? 0) (Z.to_pos (2 ^ 52)) (- w + 1))
          = lit (cond_Zopp (d <? 0) m1 / 2 ^ w)) as ->.
  { destruct (Z.ltb_spec m1 (2 ^ 53)) as [Hlt53 | Hge53].
    - rewrite floor_canonical by (try split; unfold w, u in *; lia).
      rewrite Z.opp_involutive. reflexivity.
    - assert (m1 = 2 ^ 53) as -> by lia.
      assert (1 <= w) as Hw1.
      { destruct (Z_le_gt_dec 1 w) as [ | Hw0]; [assumption | exfalso].
        assert (w = 0) as Hw by (unfold w, u in *; lia).
        rewrite Hw in Hlt. change (2 ^ 0) with 1 in Hlt. destruct Sd. lia. }
      rewrite floor_canonical
        by (try split; rewrite ?Hp52, ?Hp53; unfold w, u in *; lia).
      f_equal.
      replace (- (- w + 1)) with (w - 1) by lia.
      replace (cond_Zopp (d <? 0) (2 ^ 53)) with (cond_Zopp (d <? 0) (2 ^ 52) * 2)
        by (destruct (d <? 0); reflexivity).
      replace (2 ^ w) with (2 ^ (w - 1) * 2)
        by (replace w with (w - 1 + 1) at 2 by lia; rewrite pow2_split by lia; reflexivity).
      pose proof (pow2_pos (w - 1) ltac:(lia)).
      rewrite Z.div_mul_cancel_r by lia. reflexivity. }
  eexists. split; [reflexivity | ]. split; intros Hd.
  - replace (d <? 0) with false by (symmetry; apply Z.ltb_ge; lia).
    cbn [cond_Zopp]. rewrite Z.abs_eq in Hlt by lia. split.
    + apply Z.div_pos; lia.
    + apply Z.div_lt_upper_bound; lia.
  - replace (d <? 0) with true by (symmetry; apply Z.ltb_lt; lia).
    cbn [cond_Zopp]. rewrite Z.abs_neq in Hlt by lia. split.
    + apply Z.div_le_lower_bound; lia.
    + pose proof (Z.div_lt_upper_bound (- m1) (2 ^ w) 0 Hpw ltac:(lia)). lia.
Qed.

Lemma return_value_spec (s min max : Z) :
  0 <= s < 2147483648 ->
  Z.abs min < 2 ^ 53 -> Z.abs max < 2 ^ 53 -> Z.abs (max - min) < 2 ^ 53 ->
  exists v,
    return_value (lit s) (lit min) (lit max) = lit v
    /\ (min < max -> min <= v < max)
    /\ (max < min -> max <= v <= min)
    /\ (max = min -> v = min).
Proof.
  intros Hs Hmin Hmax Hd.
  unfold return_value.
  rewrite sub_lit by assumption.
  destruct (Z.eq_dec s 0) as [-> | Hs0].
  { exists min. split; [ | lia].
    change (lit 0 / lit 2147483648)%js with (S754_zero false).
    destruct (Z.eq_dec (max - min) 0) as [-> | Hd0].
    - change (floor (S754_zero false * lit 0)%js) with (S754_zero false).
      apply add_zero_lit. assumption.
    - rewrite (lit_small (max - min)) by (unfold small; lia).
      unfold normal, mul, SFmul, floor.
      apply add_zero_lit. assumption. }
  assert (small s) as Ss
      by (unfold small; change (2 ^ 53) with 9007199254740992; lia).
  rewrite (lit_small s Ss), div_normal_modulus by (assumption || lia).
  destruct (Z.eq_dec (max - min) 0) as [Hd0 | Hd0].
  { exists min. split; [ | lia]. rewrite Hd0.
    unfold normal, mul, SFmul. rewrite lit_zero. unfold floor.
    apply add_zero_lit. assumption. }
  assert (small (max - min)) as Sd by (unfold small; lia).
  rewrite (lit_small _ Sd).
  destruct (scaled_product s (max - min) ltac:(lia) Sd) as [F [HF [Hpos Hneg]]].
  change (0 - 31) with (-31). rewrite HF.
  exists (F + min). split; [ | lia].
  apply add_lit; lia.
Qed.

(** ** What the assignment leaves in [state] *)

Lemma lit_multiplier : lit 1664525 = normal 1664525 0.
Proof. reflexivity. Qed.

Lemma rem_modulus_cases (x : number) :
  is_integer x = true ->
  (exists b, rem x (lit 2147483648) = S754_zero b)
  \/ (exists r, 0 < Z.abs r < 2147483648 /\ rem x (lit 2147483648) = lit r).
Proof.
  intros Hx. rewrite (rem_modulus x Hx).
  destruct (Z.eqb_spec (Z.rem (to_Z x) 2147483648) 0) as [ | Hne].
  - left. eexists. reflexivity.
  - right. eexists. split; [ | reflexivity].
    pose proof (Z.rem_bound_abs (to_Z x) 2147483648 ltac:(lia)). lia.
Qed.

Lemma lcg_sum_integral (state : number) :
  is_integer state = true ->
  integer_or_infinite (state * lit 1664525 + lit 1013904223)%js.
Proof.
  intros Hs. apply add_integral; [ | reflexivity].
  apply mul_integral; [assumption | reflexivity].
Qed.

(** From any integral state, and from NaN or an infinity, the assignment
    leaves NaN, a zero or an integer of magnitude below [2^31]. *)
Lemma assign_state_assigned (state : number) :
  is_integer state = true \/ is_finite state = false ->
  assigned (assign_state state).
Proof.
  intros [Hi | Hf].
  - unfold assign_state.
    destruct (lcg_sum_integral state Hi) as [Hx | [s Hx]].
    + right. apply rem_modulus_cases. assumption.
    + left. rewrite Hx. reflexivity.
  - left. destruct state as [s | s | | s m e]; try discriminate.
    + destruct s; reflexivity.
    + reflexivity.
Qed.

Lemma lcg_sum_finite (n : Z) :
  small n -> is_finite (lit n * lit 1664525 + lit 1013904223)%js = true.
Proof.
  intros Sn. rewrite (lit_small n Sn), lit_multiplier.
  destruct (mul_normal_finite n 1664525 Sn ltac:(unfold small; simpl; lia))
    as [m [e [-> [Hm He]]]].
  apply add_finite_lit; [assumption | assumption | unfold small; simpl; lia].
Qed.

(** From a zero or an integer below [2^53] in magnitude there is no
    overflow: the assignment leaves a zero or an integer below [2^31]. *)
Lemma assign_state_safe (state : number) :
  safe_integer state ->
  (exists b, assign_state state = S754_zero b)
  \/ (exists r, 0 < Z.abs r < 2147483648 /\ assign_state state = lit r).
Proof.
  assert (Hzero : forall b, assign_state (S754_zero b) = lit 1013904223)
    by (intros []; reflexivity).
  intros [[b ->] | [n [Hn ->]]].
  - right. exists 1013904223. split; [lia | apply Hzero].
  - destruct (small_or_zero n Hn) as [-> | Sn].
    + right. exists 1013904223. split; [lia | apply (Hzero false)].
    + unfold assign_state. apply rem_modulus_cases.
      pose proof (lcg_sum_finite n Sn) as Hf.
      destruct (lcg_sum_integral (lit n) (is_integer_lit n Hn)) as [Hi | [s Hi]];
        [assumption | ].
      rewrite Hi in Hf. discriminate Hf.
Qed.

Lemma assign_state_safe_integer (state : number) :
  safe_integer state -> safe_integer (assign_state state).
Proof.
  intros Hs. destruct (assign_state_safe state Hs) as [[b ->] | [r [Hr ->]]].
  - left. eexists. reflexivity.
  - right. exists r. split; [change (2 ^ 53) with 9007199254740992; lia | reflexivity].
Qed.

Lemma iterated_state_safe (n : nat) (state : number) :
  safe_integer state -> safe_integer (Nat.iter n assign_state state).
Proof.
  intros Hs. induction n as [ | n IH]; [exact Hs | ].
  rewrite Nat.iter_succ. apply assign_state_safe_integer, IH.
Qed.

(** From a non-negative integer below [2^53] the assignment leaves a
    non-negative integer below [2^31]: the product and the sum may be
    rounded but stay non-negative integers, and [%] keeps the sign. *)
Lemma assign_state_nonneg (n : Z) :
  0 <= n < 2 ^ 53 ->
  exists r, 0 <= r < 2147483648 /\ assign_state (lit n) = lit r.
Proof.
  intros Hn.
  destruct (Z.eq_dec n 0) as [-> | Hn0].
  { exists 1013904223. split; [lia | reflexivity]. }
  assert (small n) as Sn by (unfold small; lia).
  set (x := (lit n * lit 1664525 + lit 1013904223)%js).
  assert (is_integer x = true) as Hi.
  { pose proof (lcg_sum_finite n Sn) as Hf. fold x in Hf.
    destruct (lcg_sum_integral (lit n) (is_integer_lit n ltac:(lia))) as [Hi | [s Hi]];
      fold x in Hi; [assumption | ].
    rewrite Hi in Hf. discriminate Hf. }
  assert (sign x = false) as Hs.
  { unfold x. rewrite (lit_small n Sn), lit_multiplier.
    destruct (mul_normal_finite n 1664525 Sn ltac:(unfold small; simpl; lia))
      as [m [e [-> _]]].
    replace (n <? 0) with false by (symmetry; apply Z.ltb_ge; lia).
    apply add_sign_nonneg. }
  pose proof (to_Z_nonneg x Hs) as Hz.
  pose proof (Z.rem_bound_pos (to_Z x) 2147483648 Hz ltac:(lia)) as Hr.
  exists (Z.rem (to_Z x) 2147483648). split; [exact Hr | ].
  unfold assign_state. fold x. rewrite (rem_modulus x Hi), Hs.
  destruct (Z.eqb_spec (Z.rem (to_Z x) 2147483648) 0) as [-> | ]; reflexivity.
Qed.

Lemma iterated_state_nonneg (k : nat) (n : Z) :
  0 <= n < 2 ^ 53 ->
  exists r, 0 <= r < 2147483648 /\ Nat.iter (S k) assign_state (lit n) = lit r.
Proof.
  intros Hn. induction k as [ | k [r [Hr IH]]].
  - apply assign_state_nonneg. assumption.
  - rewrite Nat.iter_succ, IH. apply assign_state_nonneg.
    change (2 ^ 53) with 9007199254740992. lia.
Qed.

(** ** The value returned on the full range [(0, 2^31)] *)

Lemma return_value_full_range (state : number) :
  assigned state ->
  eqb (return_value state (lit 0) (lit 2147483648)) (lit 2147483648) = false.
Proof.
  intros [-> | [[b ->] | [r [Hr ->]]]].
  - reflexivity.
  - destruct b; reflexivity.
  - assert (Hp : 2 ^ 53 = 9007199254740992) by reflexivity.
    assert (small r) as Sr by (unfold small; rewrite Hp; lia).
    unfold return_value.
    rewrite (lit_small r Sr), div_normal_modulus by (assumption || lia).
    change (lit 2147483648 - lit 0)%js with (lit 2147483648).
    rewrite mul_normal_modulus by (assumption || lia).
    change (0 - 31 + 31) with 0.
    rewrite floor_normal by (assumption || lia).
    change (2 ^ (- 0)) with 1. rewrite Z.div_1_r.
    rewrite add_lit by (rewrite Hp; lia).
    rewrite eqb_lit by (rewrite Hp; lia).
    apply Z.eqb_neq. lia.
Qed.

(** ** The value returned on an empty range [(min, min)] *)

Lemma sub_diag (x : number) : is_finite x = true -> sub x x = S754_zero false.
Proof.
  destruct x as [s | s | | s m e]; try discriminate; intros _.
  - destruct s; reflexivity.
  - unfold sub, SFsub. rewrite Z.sub_diag. reflexivity.
Qed.

Lemma eqb_refl_finite (x : number) : is_finite x = true -> eqb x x = true.
Proof.
  destruct x as [s | s | | s m e]; try discriminate; intros _.
  - reflexivity.
  - unfold eqb, SFeqb, SFcompare.
    rewrite Z.compare_refl, Pos.compare_cont_refl. destruct s; reflexivity.
Qed.

Lemma add_zero_finite (b : bool) (x : number) :
  is_finite x = true ->
  eqb (add (S754_zero b) x) x = true
  /\ (x <> S754_zero true -> add (S754_zero b) x = x).
Proof.
  destruct x as [s | s | | s m e]; try discriminate; intros _.
  - split; [destruct b, s; reflexivity | ].
    intros Hx. destruct b, s; try reflexivity. congruence.
  - split; [ | reflexivity].
    change (add (S754_zero b) (S754_finite s m e)) with (S754_finite s m e).
    apply eqb_refl_finite. reflexivity.
Qed.

Lemma return_value_empty_range (state min : number) :
  (exists b, state = S754_zero b)
  \/ (exists r, 0 < Z.abs r < 2147483648 /\ state = lit r) ->
  is_finite min = true ->
  eqb (return_value state min min) min = true
  /\ (min <> S754_zero true -> return_value state min min = min).
Proof.
  intros Hs Hmin. unfold return_value. rewrite (sub_diag min Hmin).
  assert (exists b, floor (state / lit 2147483648 * S754_zero false)%js = S754_zero b)
    as [b ->].
  { destruct Hs as [[b ->] | [r [Hr ->]]].
    - exists b. destruct b; reflexivity.
    - assert (small r) as Sr
          by (unfold small; change (2 ^ 53) with 9007199254740992; lia).
      rewrite (lit_small r Sr), div_normal_modulus by (assumption || lia).
      eexists. reflexivity. }
  apply add_zero_finite. assumption.
Qed.

End Generator.

(** * Closures, environments and runs of calls *)

Module Closure.
Import Number Random.

Lemma seededRandom_fresh (seed : number) (sigma : store) :
  sigma !! fst (seededRandom seed sigma) = None.
Proof. apply not_elem_of_dom, is_fresh. Qed.

Lemma seededRandom_state (seed : number) (sigma : store) :
  snd (seededRandom seed sigma) !! fst (seededRandom seed sigma) = Some seed.
Proof. apply lookup_insert_eq. Qed.

Lemma seededRandom_frame (seed : number) (sigma : store) (l : loc) :
  l <> fst (seededRandom seed sigma) ->
  snd (seededRandom seed sigma) !! l = sigma !! l.
Proof.
  unfold seededRandom. cbn [fst snd]. intros Hl.
  apply lookup_insert_ne. congruence.
Qed.

Lemma seededRandom_distinct (seed1 seed2 : number) (sigma : store) :
  fst (seededRandom seed1 sigma)
  <> fst (seededRandom seed2 (snd (seededRandom seed1 sigma))).
Proof.
  intros Heq.
  pose proof (seededRandom_fresh seed2 (snd (seededRandom seed1 sigma))) as Hf.
  rewrite <- Heq, seededRandom_state in Hf. discriminate.
Qed.

Lemma call_eq (g : loc) (min max state : number) (sigma : store) :
  sigma !! g = Some state ->
  call g min max sigma
  = Some (Normal (return_value (assign_state state) min max),
          <[g := assign_state state]> sigma).
Proof. intros Hg. unfold call, draw. rewrite Hg. reflexivity. Qed.

Lemma call_all_eq (g : loc) (calls : list (number * number)) :
  forall (state : number) (sigma : store),
    sigma !! g = Some state ->
    call_all g calls sigma
    = Some (map Normal (fst (draws calls state)),
            <[g := snd (draws calls state)]> sigma).
Proof.
  induction calls as [ | [min max] calls IH]; intros state sigma Hg.
  - cbn [call_all draws map fst snd]. rewrite insert_id by assumption. reflexivity.
  - cbn [call_all draws]. rewrite (call_eq g min max state sigma Hg).
    rewrite (IH (assign_state state)) by apply lookup_insert_eq.
    unfold draw. destruct (draws calls (assign_state state)) as [vs final].
    cbn [map fst snd]. rewrite insert_insert_eq. reflexivity.
Qed.

Lemma draws_state (calls : list (number * number)) :
  forall state : number,
    snd (draws calls state) = Nat.iter (length calls) assign_state state.
Proof.
  induction calls as [ | [min max] calls IH]; intros state.
  - reflexivity.
  - cbn [draws length]. unfold draw. specialize (IH (assign_state state)).
    destruct (draws calls (assign_state state)) as [vs final]. cbn [snd] in *.
    rewrite IH. symmetry. apply Nat.iter_succ_r.
Qed.


End Closure.

(** * The sequence of states on the integers *)

Module Sequence.
Import Exact Orbit.

Lemma next_mod (x : Z) : next (x mod modulus) = next x.
Proof.
  unfold next, modulus, multiplier, increment.
  rewrite Z.add_mod, Z.mul_mod_idemp_l by lia.
  rewrite <- Z.add_mod by lia. reflexivity.
Qed.

Lemma next_congruent (x y : Z) :
  x mod modulus = y mod modulus -> next x = next y.
Proof. intros H. rewrite <- (next_mod x), <- (next_mod y), H. reflexivity. Qed.

Lemma state_after_bounds (n : nat) (x : Z) :
  0 <= x < modulus -> 0 <= state_after n x < modulus.
Proof.
  intros Hx. destruct n as [ | n]; [exact Hx | ].
  unfold state_after. rewrite Nat.iter_succ.
  unfold next. apply Z.mod_pos_bound. reflexivity.
Qed.

(** An odd factor can be cancelled from a multiple of a power of two. *)
Lemma pow2_divide_odd_factor (k : nat) :
  forall u v : Z, Z.odd u = true -> (2 ^ Z.of_nat k | u * v) -> (2 ^ Z.of_nat k | v).
Proof.
  induction k as [ | k IH]; intros u v Hu H.
  - apply Z.divide_1_l.
  - rewrite Nat2Z.inj_succ, Z.pow_succ_r in * by lia.
    assert (Z.odd v = false) as Hv.
    { destruct H as [q Hq].
      assert (Z.odd (u * v) = false) as Hodd
          by (rewrite Hq, Z.odd_mul, (Z.odd_mul 2); cbn [Z.odd]; apply andb_false_r).
      rewrite Z.odd_mul, Hu in Hodd. exact Hodd. }
    assert (exists w, v = 2 * w) as [w ->].
    { exists (v / 2). pose proof (Z.div_mod v 2 ltac:(lia)) as Hdm.
      rewrite Zmod_odd, Hv in Hdm. lia. }
    apply Z.mul_divide_mono_l, (IH u); [assumption | ].
    apply (Z.mul_divide_cancel_l _ _ 2); [lia | ].
    replace (2 * (u * w)) with (u * (2 * w)) by ring. exact H.
Qed.

Lemma modulus_pow2 : modulus = 2 ^ Z.of_nat 31.
Proof. reflexivity. Qed.

Lemma divide_small (d : Z) : (modulus | d) -> - modulus < d < modulus -> d = 0.
Proof. unfold modulus. intros [k ->] Hd. lia. Qed.

Lemma congruent_divide (x y : Z) :
  x mod modulus = y mod modulus <-> (modulus | x - y).
Proof.
  unfold modulus. split.
  - intros H. apply Z.mod_divide; [lia | ].
    rewrite Zminus_mod, H, Z.sub_diag. reflexivity.
  - intros [k Hk]. replace x with (y + k * 2147483648) by lia.
    apply Z_mod_plus_full.
Qed.

(** The step is injective on [0, 2^31): the multiplier is odd. *)
Lemma next_injective (x y : Z) :
  0 <= x < modulus -> 0 <= y < modulus -> next x = next y -> x = y.
Proof.
  intros Hx Hy H. unfold next in H.
  apply congruent_divide in H.
  replace (x * multiplier + increment - (y * multiplier + increment))
    with (multiplier * (x - y)) in H by ring.
  rewrite modulus_pow2 in H.
  apply pow2_divide_odd_factor in H; [ | reflexivity].
  rewrite <- modulus_pow2 in H.
  pose proof (divide_small (x - y) H ltac:(lia)). lia.
Qed.

Lemma state_after_injective (n : nat) (x y : Z) :
  0 <= x < modulus -> 0 <= y < modulus ->
  state_after n x = state_after n y -> x = y.
Proof.
  intros Hx Hy. induction n as [ | n IH]; [trivial | ].
  unfold state_after in *. rewrite !Nat.iter_succ. intros H.
  apply IH, next_injective; try assumption.
  - apply (state_after_bounds n x Hx).
  - apply (state_after_bounds n y Hy).
Qed.

Lemma odd_mod_modulus (z : Z) : Z.odd (z mod modulus) = Z.odd z.
Proof.
  unfold modulus. rewrite Z.mod_eq by lia.
  rewrite Z.odd_sub, Z.odd_mul. cbn [Z.odd andb]. apply xorb_false_r.
Qed.

(** Consecutive states have opposite parities. *)
Lemma next_parity (x : Z) : Z.odd (next x) = negb (Z.odd x).
Proof.
  unfold next. rewrite odd_mod_modulus.
  unfold multiplier, increment.
  rewrite Z.odd_add, Z.odd_mul. cbn [Z.odd].
  rewrite andb_true_r. apply xorb_true_r.
Qed.

(** ** The period *)

Lemma geometric_pow (a : Z) (n : nat) :
  a ^ Z.of_nat n = 1 + (a - 1) * geometric a n.
Proof.
  induction n as [ | n IH].
  - cbn [geometric]. change (a ^ Z.of_nat 0) with 1. ring.
  - rewrite Nat2Z.inj_succ, Z.pow_succ_r, IH by lia. cbn [geometric]. ring.
Qed.

Lemma geometric_add (a : Z) (n k : nat) :
  geometric a (n + k) = geometric a n + a ^ Z.of_nat n * geometric a k.
Proof.
  induction n as [ | n IH].
  - cbn [Nat.add geometric]. change (a ^ Z.of_nat 0) with 1. ring.
  - cbn [Nat.add geometric]. rewrite IH, Nat2Z.inj_succ, Z.pow_succ_r by lia. ring.
Qed.

Lemma geometric_double (a : Z) (h : nat) :
  geometric a (2 * h) = geometric a h * (1 + a ^ Z.of_nat h).
Proof.
  replace (2 * h)%nat with (h + h)%nat by lia. rewrite geometric_add. ring.
Qed.

Lemma multiplier_pow_mod4 (n : nat) : multiplier ^ Z.of_nat n mod 4 = 1.
Proof.
  induction n as [ | n IH]; [reflexivity | ].
  rewrite Nat2Z.inj_succ, Z.pow_succ_r by lia.
  rewrite Z.mul_mod, IH by lia. reflexivity.
Qed.

Lemma multiplier_pow_succ_half (n : nat) :
  exists u, Z.odd u = true /\ 1 + multiplier ^ Z.of_nat n = 2 * u.
Proof.
  pose proof (multiplier_pow_mod4 n) as H4.
  pose proof (Z.div_mod (multiplier ^ Z.of_nat n) 4 ltac:(lia)) as Hdm.
  rewrite H4 in Hdm.
  exists (2 * (multiplier ^ Z.of_nat n / 4) + 1). split; [ | lia].
  rewrite Z.odd_add, Z.odd_mul. reflexivity.
Qed.

Lemma geometric_odd (n : nat) : Z.odd (geometric multiplier n) = Nat.odd n.
Proof.
  induction n as [ | n IH]; [reflexivity | ].
  cbn [geometric]. rewrite Z.odd_add, Z.odd_mul, IH.
  change (Z.odd multiplier) with true. change (Z.odd 1) with true. cbn [andb xorb].
  rewrite Nat.odd_succ, <- Nat.negb_odd. reflexivity.
Qed.

Lemma even_multiple_not_odd (t z : Z) : (2 * t | z) -> Z.odd z = false.
Proof.
  intros [q ->]. rewrite Z.odd_mul, (Z.odd_mul 2). cbn [Z.odd]. apply andb_false_r.
Qed.

(** [1 + a + ... + a^(n-1)] is divisible by a power of two exactly when
    [n] is: the multiplier is 1 modulo 4. *)
Lemma geometric_valuation (k : nat) :
  forall n : nat,
    (2 ^ Z.of_nat k | geometric multiplier n) <-> (2 ^ Z.of_nat k | Z.of_nat n).
Proof.
  induction k as [ | k IH]; intros n.
  - change (2 ^ Z.of_nat 0) with 1. split; intros _; apply Z.divide_1_l.
  - rewrite Nat2Z.inj_succ, Z.pow_succ_r by lia.
    destruct (Nat.Even_or_Odd n) as [[h ->] | [h ->]].
    + rewrite geometric_double.
      destruct (multiplier_pow_succ_half h) as [u [Hu ->]].
      replace (geometric multiplier h * (2 * u))
        with (2 * (u * geometric multiplier h)) by ring.
      rewrite Nat2Z.inj_mul. change (Z.of_nat 2) with 2.
      rewrite !Z.mul_divide_cancel_l by lia.
      rewrite <- IH. split.
      * apply pow2_divide_odd_factor. assumption.
      * intros H. apply Z.divide_mul_r. assumption.
    + split; intros H; apply even_multiple_not_odd in H; exfalso.
      * rewrite geometric_odd, Nat.odd_add, Nat.odd_mul in H. discriminate H.
      * rewrite Nat2Z.inj_add, Nat2Z.inj_mul, Z.odd_add, Z.odd_mul in H.
        discriminate H.
Qed.

(** The state after [n] steps, modulo [2^31]. *)
Lemma state_after_formula (n : nat) (x : Z) :
  (modulus | state_after n x
             - (multiplier ^ Z.of_nat n * x + increment * geometric multiplier n)).
Proof.
  induction n as [ | n [q IH]].
  - exists 0. unfold state_after. change (Nat.iter 0 next x) with x.
    cbn [geometric]. change (multiplier ^ Z.of_nat 0) with 1. ring.
  - unfold state_after in *. rewrite Nat.iter_succ.
    set (y := Nat.iter n next x) in *.
    unfold next at 1. rewrite Z.mod_eq by (unfold modulus; lia).
    rewrite Nat2Z.inj_succ, Z.pow_succ_r by lia. cbn [geometric].
    exists (multiplier * q - (y * multiplier + increment) / modulus).
    replace y with (q * modulus
                    + (multiplier ^ Z.of_nat n * x + increment * geometric multiplier n))
      at 1 by lia.
    ring.
Qed.

(** From a state in [0, 2^31) the sequence is back at its start after
    [n] steps exactly when [n] is a multiple of [2^31]. *)
Lemma state_after_returns (n : nat) (x : Z) :
  0 <= x < modulus ->
  state_after n x = x <-> (modulus | Z.of_nat n).
Proof.
  intros Hx.
  pose proof (state_after_bounds n x Hx) as Hb.
  pose proof (state_after_formula n x) as Hf.
  rewrite geometric_pow in Hf.
  assert ((modulus | state_after n x - x)
          <-> (modulus | geometric multiplier n)) as Hg.
  { set (g := geometric multiplier n) in *.
    set (u := (multiplier - 1) * x + increment).
    assert (Z.odd u = true) as Hu.
    { unfold u. rewrite Z.odd_add, Z.odd_mul. reflexivity. }
    assert ((modulus | state_after n x - x) <-> (modulus | u * g)) as ->.
    { destruct Hf as [q Hq]. split; intros [r Hr].
      - exists (r - q). unfold u. lia.
      - exists (r + q). unfold u in Hr. lia. }
    rewrite modulus_pow2. split.
    - apply pow2_divide_odd_factor. assumption.
    - intros H. apply Z.divide_mul_r. assumption. }
  assert ((modulus | Z.of_nat n) <-> (modulus | geometric multiplier n)) as Hv
    by (rewrite modulus_pow2; symmetry; apply geometric_valuation).
  rewrite Hv, <- Hg.
  split.
  - intros ->. rewrite Z.sub_diag. apply Z.divide_0_r.
  - intros H. pose proof (divide_small _ H ltac:(lia)). lia.
Qed.

(** ** Parities and low bits *)

Lemma state_after_parity (n : nat) (x : Z) :
  Z.odd (state_after n x) = xorb (Z.odd x) (Nat.odd n).
Proof.
  induction n as [ | n IH].
  - cbn [Nat.odd]. symmetry. apply xorb_false_r.
  - unfold state_after in *. rewrite Nat.iter_succ, next_parity, IH.
    rewrite Nat.odd_succ, <- Nat.negb_odd. apply negb_xorb_r.
Qed.

Lemma state_after_add (n p : nat) (x : Z) :
  state_after (p + n) x = state_after p (state_after n x).
Proof. unfold state_after. apply Nat.iter_add. Qed.

(** The low [k] bits of the state come back after [2^k] steps. *)
Lemma state_after_low_bits (k n : nat) (x : Z) :
  (k <= 31)%nat ->
  (2 ^ Z.of_nat k | state_after (2 ^ k + n) x - state_after n x).
Proof.
  intros Hk. rewrite state_after_add.
  set (y := state_after n x).
  destruct (state_after_formula (2 ^ k) y) as [q Hq].
  rewrite geometric_pow in Hq.
  assert ((2 ^ Z.of_nat k | geometric multiplier (2 ^ k))) as [g Hg].
  { apply geometric_valuation. rewrite Nat2Z.inj_pow. apply Z.divide_refl. }
  assert ((2 ^ Z.of_nat k | modulus)) as [h Hh].
  { rewrite modulus_pow2. exists (2 ^ (Z.of_nat 31 - Z.of_nat k)).
    rewrite <- Z.pow_add_r by lia. f_equal. lia. }
  exists (q * h + ((multiplier - 1) * y + increment) * g).
  rewrite Hg in Hq. rewrite Hh in Hq. lia.
Qed.

Lemma divide_mod_eq (a b d : Z) : 0 < d -> (d | a - b) -> a mod d = b mod d.
Proof.
  intros Hd [q Hq]. replace a with (b + q * d) by lia. apply Z_mod_plus_full.
Qed.

(** ** Predecessors *)

Lemma next_surjective (t : Z) :
  0 <= t < modulus -> exists p, 0 <= p < modulus /\ next p = t.
Proof.
  intros Ht. exists (((t - increment) * 2128632005) mod modulus). split.
  - apply Z.mod_pos_bound. reflexivity.
  - rewrite next_mod. unfold next.
    replace ((t - increment) * 2128632005 * multiplier + increment)
      with (t + (t - increment) * 1649913 * modulus)
      by (unfold multiplier, increment, modulus; ring).
    rewrite Z_mod_plus_full. apply Z.mod_small. exact Ht.
Qed.

Lemma state_after_surjective (n : nat) (t : Z) :
  0 <= t < modulus -> exists s, 0 <= s < modulus /\ state_after n s = t.
Proof.
  revert t. induction n as [ | n IH]; intros t Ht.
  - exists t. split; [exact Ht | reflexivity].
  - destruct (next_surjective t Ht) as [p [Hp Hnext]].
    destruct (IH p Hp) as [s [Hs Hst]].
    exists s. split; [exact Hs | ].
    unfold state_after in *. rewrite Nat.iter_succ, Hst. exact Hnext.
Qed.

(** ** States that scale to a given value *)

(** For a width [d] of at most [2^31] every [w] below [d] is
    [floor (r * d / 2^31)] for some state [r]. *)
Lemma scaled_value_attained (d w : Z) :
  0 < d <= modulus -> 0 <= w < d ->
  exists r, 0 <= r < modulus /\ r * d / modulus = w.
Proof.
  unfold modulus. intros Hd Hw.
  set (N := w * 2147483648 + d - 1).
  pose proof (Z.mul_div_le N d ltac:(lia)) as Hle.
  pose proof (Z.mul_succ_div_gt N d ltac:(lia)) as Hgt.
  exists (N / d). split.
  - split; [apply Z.div_pos; unfold N; nia | ].
    apply Z.div_lt_upper_bound; unfold N; nia.
  - symmetry. apply (Z.div_unique _ _ _ (N / d * d - w * 2147483648)); unfold N in *; lia.
Qed.

(** ** The recurrence with the remainder of [%] *)

Lemma next_rem_bound (x : Z) : Z.abs (next_rem x) < modulus.
Proof.
  unfold next_rem, modulus.
  pose proof (Z.rem_bound_abs (x * 1664525 + 1013904223) 2147483648 ltac:(lia)).
  lia.
Qed.

Lemma next_rem_nonneg (x : Z) :
  0 <= x * 1664525 + 1013904223 -> next_rem x = next x.
Proof.
  intros Hx. unfold next_rem, next, multiplier, increment, modulus.
  apply Z.rem_mod_nonneg; lia.
Qed.

(** ** A step never leaves the state where it was *)

Lemma next_changes (x : Z) : next x <> x.
Proof.
  intros H. pose proof (next_parity x) as Hp. rewrite H in Hp.
  destruct (Z.odd x); discriminate Hp.
Qed.

Lemma next_rem_parity (x : Z) : Z.odd (next_rem x) = negb (Z.odd x).
Proof.
  unfold next_rem. rewrite Z.rem_eq by lia.
  rewrite Z.odd_sub, Z.odd_mul, Z.odd_add, Z.odd_mul. cbn [Z.odd andb].
  rewrite andb_true_r, !xorb_false_r. apply xorb_true_r.
Qed.

Lemma next_rem_changes (x : Z) : next_rem x <> x.
Proof.
  intros H. pose proof (next_rem_parity x) as Hp. rewrite H in Hp.
  destruct (Z.odd x); discriminate Hp.
Qed.

End Sequence.

(** * The states a generator goes through *)

Module States.
Import Number Binary64 Random Generator Closure Exact Orbit Sequence.

Lemma pow53 : 2 ^ 53 = 9007199254740992.
Proof. reflexivity. Qed.

(** Distinct integers below [2^53] are distinct numbers. *)
Lemma lit_injective (a b : Z) :
  Z.abs a < 2 ^ 53 -> Z.abs b < 2 ^ 53 -> lit a = lit b -> a = b.
Proof.
  intros Ha Hb H.
  rewrite <- (to_Z_lit a Ha), <- (to_Z_lit b Hb), H. reflexivity.
Qed.

Lemma mul_lit_signed (x y : Z) :
  x <> 0 -> y <> 0 -> Z.abs (x * y) < 2 ^ 53 -> mul (lit x) (lit y) = lit (x * y).
Proof.
  intros Hx Hy Hxy.
  assert (small x) as Sx by (unfold small; nia).
  assert (small y) as Sy by (unfold small; nia).
  assert (small (x * y)) as Sxy by (unfold small; nia).
  rewrite (lit_small x Sx), (lit_small y Sy), (lit_small _ Sxy).
  apply mul_normal; (assumption || lia).
Qed.

(** ** The assignment from a seed of either sign *)

Lemma assign_state_rem (s : Z) :
  Z.abs s <= max_exact_seed ->
  assign_state (lit s)
  = if next_rem s =? 0 then S754_zero (s * 1664525 + 1013904223 <? 0)
    else lit (next_rem s).
Proof.
  intros Hs. unfold max_exact_seed in Hs.
  destruct (Z.eq_dec s 0) as [-> | Hs0]; [vm_compute; reflexivity | ].
  unfold assign_state.
  rewrite mul_lit_signed by (rewrite ?pow53; lia).
  rewrite add_lit by (rewrite pow53; lia).
  rewrite rem_modulus by (apply is_integer_lit; rewrite pow53; lia).
  rewrite to_Z_lit, sign_lit by (rewrite pow53; lia).
  reflexivity.
Qed.

Lemma assign_state_zero (b : bool) : assign_state (S754_zero b) = lit 1013904223.
Proof. destruct b; vm_compute; reflexivity. Qed.

(** From a seed of magnitude at most [5411272429] every state is the
    integer of the recurrence with [%], or the negative zero where that
    integer is [0]. *)
Lemma iterated_state_rem (n : nat) (seed : Z) :
  Z.abs seed <= max_exact_seed ->
  Z.abs (Nat.iter n next_rem seed) <= max_exact_seed
  /\ (Nat.iter n assign_state (lit seed) = lit (Nat.iter n next_rem seed)
      \/ (Nat.iter n next_rem seed = 0
          /\ Nat.iter n assign_state (lit seed) = S754_zero true)).
Proof.
  intros Hs. induction n as [ | n [Hr IH]].
  - split; [exact Hs | left; reflexivity].
  - rewrite !Nat.iter_succ. set (r := Nat.iter n next_rem seed) in *.
    pose proof (next_rem_bound r) as Hb. unfold modulus in Hb.
    split; [unfold max_exact_seed; lia | ].
    destruct IH as [-> | [Hr0 ->]].
    + rewrite (assign_state_rem r Hr).
      destruct (Z.eqb_spec (next_rem r) 0) as [Hz | Hnz]; [ | left; reflexivity].
      destruct (r * 1664525 + 1013904223 <? 0).
      * right. split; [exact Hz | reflexivity].
      * left. rewrite Hz. reflexivity.
    + left. rewrite assign_state_zero, Hr0. reflexivity.
Qed.

(** ** States that are zeros or non-negative integers *)

Lemma assign_state_from_nonneg (state : number) :
  (exists b, state = S754_zero b)
  \/ (exists r, 0 <= r < 2 ^ 53 /\ state = lit r) ->
  exists r, 0 <= r < 2147483648 /\ assign_state state = lit r.
Proof.
  intros [[b ->] | [r [Hr ->]]].
  - exists 1013904223. split; [lia | apply assign_state_zero].
  - apply assign_state_nonneg. exact Hr.
Qed.

Lemma iterated_state_from_nonneg (n : nat) (state : number) :
  (exists b, state = S754_zero b)
  \/ (exists r, 0 <= r < 2147483648 /\ state = lit r) ->
  (exists b, Nat.iter n assign_state state = S754_zero b)
  \/ (exists r, 0 <= r < 2147483648 /\ Nat.iter n assign_state state = lit r).
Proof.
  intros Hs. induction n as [ | n IH]; [exact Hs | ].
  rewrite Nat.iter_succ. right. apply assign_state_from_nonneg.
  destruct IH as [Hz | [r [Hr Hl]]]; [left; exact Hz | right].
  exists r. split; [rewrite pow53; lia | exact Hl].
Qed.

(** ** Signs of products and floors *)

Lemma binary_round_aux_sign_or_nan (s : bool) (M E : Z) (l : location) :
  binary_round_aux prec emax s M E l = S754_nan
  \/ sign (binary_round_aux prec emax s M E l) = s.
Proof.
  unfold binary_round_aux.
  destruct (shr_fexp prec emax M E l) as [mrs1 e1].
  destruct (shr_fexp prec emax _ e1 loc_Exact) as [mrs2 e2].
  destruct (shr_m mrs2); [right; reflexivity | | left; reflexivity].
  destruct (e2 <=? emax - prec); right; reflexivity.
Qed.

Lemma binary_round_sign_or_nan (s : bool) (m : positive) (e : Z) :
  binary_round prec emax s m e = S754_nan
  \/ sign (binary_round prec emax s m e) = s.
Proof.
  unfold binary_round.
  destruct (shl_align m e _) as [mz ez]. apply binary_round_aux_sign_or_nan.
Qed.

(** [Math.floor] keeps the sign: the floor of a negative number is
    negative, never a zero. *)
Lemma floor_sign (x : number) :
  floor x = S754_nan \/ sign (floor x) = sign x.
Proof.
  destruct x as [s | s | | s m e]; try (right; reflexivity).
  unfold floor. destruct (0 <=? e); [right; reflexivity | ].
  cbn [sign]. destruct s.
  - change (cond_Zopp true (Z.pos m)) with (Z.neg m).
    pose proof (Z.shiftr_neg (Z.neg m) (- e)) as Hneg.
    destruct (Z.shiftr (Z.neg m) (- e)) as [ | p | p]; [lia | lia | ].
    apply binary_round_sign_or_nan.
  - change (cond_Zopp false (Z.pos m)) with (Z.pos m).
    pose proof (Z.shiftr_nonneg (Z.pos m) (- e)) as Hpos.
    destruct (Z.shiftr (Z.pos m) (- e)) as [ | p | p]; [right; reflexivity | | lia].
    apply binary_round_sign_or_nan.
Qed.

Lemma mul_normal_sign (x y ex ey : Z) :
  mul (normal x ex) (normal y ey) = S754_nan
  \/ sign (mul (normal x ex) (normal y ey)) = xorb (x <? 0) (y <? 0).
Proof. unfold normal, mul, SFmul. apply binary_round_aux_sign_or_nan. Qed.

Lemma Zdigits2_opp (n : Z) : Zdigits2 (- n) = Zdigits2 n.
Proof. destruct n; reflexivity. Qed.

(** A product depends on the signs of its factors through their product
    only. *)
Lemma mul_normal_opp (x y ex ey : Z) :
  x <> 0 -> y <> 0 ->
  mul (normal (- x) ex) (normal (- y) ey) = mul (normal x ex) (normal y ey).
Proof.
  intros Hx Hy. unfold normal, mul, SFmul, significand, exponent.
  rewrite !Zdigits2_opp, !Z.abs_opp.
  replace (xorb (- x <? 0) (- y <? 0)) with (xorb (x <? 0) (y <? 0)); [reflexivity | ].
  destruct (Z.ltb_spec x 0), (Z.ltb_spec y 0), (Z.ltb_spec (- x) 0), (Z.ltb_spec (- y) 0);
    try reflexivity; lia.
Qed.

(** ** The value returned from a negative state *)

(** For a negative state the scaled product has the sign opposite to
    that of [max - min], and its floor is never [0] when it is
    negative. *)
Lemma scaled_product_negative (s d : Z) :
  - 2147483648 < s < 0 -> small d ->
  exists F,
    floor (normal s (-31) * normal d 0)%js = lit F
    /\ (0 < d -> - d <= F < 0) /\ (d < 0 -> 0 <= F < - d).
Proof.
  intros Hs Sd.
  assert (d <> 0) as Hd0 by (destruct Sd; lia).
  assert (small (- d)) as Sd' by (unfold small in *; lia).
  destruct (scaled_product (- s) (- d) ltac:(lia) Sd') as [F [HF [Hpos Hneg]]].
  rewrite mul_normal_opp in HF by lia.
  exists F. split; [exact HF | ]. split; intros Hd; [ | lia].
  specialize (Hneg ltac:(lia)). split; [lia | ].
  assert (Z.abs F < 2 ^ 53) as HFb by (destruct Sd; lia).
  pose proof (is_finite_lit F HFb) as Hfin. rewrite <- HF in Hfin.
  pose proof (sign_lit F HFb) as Hsign. rewrite <- HF in Hsign.
  destruct (floor_sign (normal s (-31) * normal d 0)%js) as [Hnan | Hfl];
    [rewrite Hnan in Hfin; discriminate Hfin | ].
  destruct (mul_normal_sign s d (-31) 0) as [Hnan | Hmul];
    [rewrite Hnan in Hfin; discriminate Hfin | ].
  rewrite Hfl, Hmul in Hsign.
  replace (s <? 0) with true in Hsign by (symmetry; apply Z.ltb_lt; lia).
  replace (d <? 0) with false in Hsign by (symmetry; apply Z.ltb_ge; lia).
  symmetry in Hsign. apply Z.ltb_lt in Hsign. exact Hsign.
Qed.

(** From a negative state a draw on [min < max] returns an integer
    strictly below [min], not farther from it than [max - min]. *)
Lemma return_value_negative (s min max : Z) :
  - 2147483648 < s < 0 ->
  Z.abs min < 2 ^ 53 -> Z.abs max < 2 ^ 53 -> max - min < 2 ^ 53 ->
  Z.abs (2 * min - max) < 2 ^ 53 -> min < max ->
  exists v,
    return_value (lit s) (lit min) (lit max) = lit v /\ 2 * min - max <= v < min.
Proof.
  intros Hs Hmin Hmax Hd Hlow Hlt.
  unfold return_value.
  rewrite sub_lit by (assumption || lia).
  assert (small s) as Ss by (unfold small; rewrite pow53; lia).
  assert (small (max - min)) as Sd by (unfold small; lia).
  rewrite (lit_small s Ss), div_normal_modulus by (assumption || lia).
  rewrite (lit_small _ Sd).
  destruct (scaled_product_negative s (max - min) Hs Sd) as [F [HF [Hpos _]]].
  specialize (Hpos ltac:(lia)).
  change (0 - 31) with (-31). rewrite HF.
  exists (F + min). split; [ | lia].
  apply add_lit; lia.
Qed.

(** ** The value returned from a zero state *)

Lemma return_value_zero (b : bool) (min max : Z) :
  Z.abs min < 2 ^ 53 -> Z.abs max < 2 ^ 53 -> Z.abs (max - min) < 2 ^ 53 ->
  return_value (S754_zero b) (lit min) (lit max) = lit min.
Proof.
  intros Hmin Hmax Hd. unfold return_value.
  rewrite sub_lit by assumption.
  assert (div (S754_zero b) (lit 2147483648) = S754_zero b) as ->
      by (destruct b; reflexivity).
  assert (exists b', floor (S754_zero b * lit (max - min))%js = S754_zero b')
    as [b' ->].
  { destruct (small_or_zero (max - min) Hd) as [-> | Sd].
    - eexists. rewrite lit_zero. reflexivity.
    - eexists. rewrite (lit_small _ Sd). reflexivity. }
  apply add_zero_lit. assumption.
Qed.

(** ** Ranges whose width is a power of two *)

Lemma lit_pow2 (k : Z) :
  0 <= k <= 52 -> lit (2 ^ k) = S754_finite false 4503599627370496 (k - 52).
Proof.
  intros Hk. pose proof (pow2_pos k ltac:(lia)) as Hp.
  pose proof (pow2_lt k 53 ltac:(lia)) as Hlt.
  assert (small (2 ^ k)) as Sk by (unfold small; lia).
  assert (Zdigits2 (2 ^ k) = 1 + k) as Hdig.
  { rewrite <- (Z.mul_1_l (2 ^ k)). rewrite Zdigits2_shift by lia. reflexivity. }
  rewrite (lit_small _ Sk). unfold normal, significand, exponent, prec.
  rewrite Hdig, Z.abs_eq by lia.
  replace (2 ^ k <? 0) with false by (symmetry; apply Z.ltb_ge; lia).
  rewrite <- pow2_split by lia.
  replace (k + (53 - (1 + k))) with 52 by lia.
  f_equal. lia.
Qed.

(** Multiplying by a power of two only moves the exponent. *)
Lemma mul_normal_pow2 (x e k : Z) :
  small x -> 0 <= k <= 52 -> -1021 <= e + k <= 971 ->
  mul (normal x e) (lit (2 ^ k)) = normal x (e + k).
Proof.
  intros Hx Hk He. rewrite lit_pow2 by assumption. unfold normal.
  pose proof (mul_canonical (x <? 0) false
                (Z.to_pos (significand x)) 4503599627370496
                (exponent x e) (k - 52) (significand x) 52) as H.
  replace (exponent x e + (k - 52) + 52) with (exponent x (e + k)) in H
    by (unfold exponent; lia).
  rewrite xorb_false_r in H.
  apply H; [apply normal_canonical; assumption | lia | ].
  rewrite significand_to_pos by assumption. reflexivity.
Qed.

(** On the range [(0, 2^k)] the value is the state shifted right by
    [31 - k] bits: its [k] high bits. *)
Lemma return_value_pow2 (r k : Z) :
  0 <= r < 2147483648 -> 0 <= k <= 31 ->
  return_value (lit r) (lit 0) (lit (2 ^ k)) = lit (r / 2 ^ (31 - k)).
Proof.
  intros Hr Hk. unfold return_value.
  pose proof (pow2_pos k ltac:(lia)) as Hp.
  pose proof (pow2_lt k 53 ltac:(lia)) as Hlt.
  rewrite sub_lit by (rewrite ?Z.sub_0_r; rewrite ?pow53 in *; lia).
  rewrite Z.sub_0_r.
  destruct (Z.eq_dec r 0) as [-> | Hr0].
  { rewrite Z.div_0_l by (pose proof (pow2_pos (31 - k)); lia).
    rewrite lit_pow2 by lia. reflexivity. }
  assert (small r) as Sr by (unfold small; rewrite pow53; lia).
  rewrite (lit_small r Sr), div_normal_modulus by (assumption || lia).
  rewrite mul_normal_pow2 by (assumption || lia).
  rewrite floor_normal by (assumption || lia).
  replace (- (0 - 31 + k)) with (31 - k) by lia.
  assert (0 <= r / 2 ^ (31 - k) <= r) as Hq.
  { pose proof (pow2_pos (31 - k) ltac:(lia)). split.
    - apply Z.div_pos; lia.
    - apply Z.div_le_upper_bound; nia. }
  replace (r / 2 ^ (31 - k)) with (r / 2 ^ (31 - k) + 0) at 2 by lia.
  apply add_lit; rewrite ?Z.add_0_r, pow53; lia.
Qed.

(** ** The first state from a seed not below [-609] *)

Lemma iterated_state_threshold (n : nat) (seed : Z) :
  -609 <= seed < 2 ^ 53 ->
  exists r, 0 <= r < 2147483648 /\ Nat.iter (S n) assign_state (lit seed) = lit r.
Proof.
  intros Hs. induction n as [ | n [r [Hr IH]]].
  - cbn [Nat.iter nat_rect].
    destruct (Z_lt_le_dec seed 0) as [Hneg | Hpos];
      [ | apply assign_state_nonneg; lia].
    exists (next_rem seed).
    pose proof (next_rem_nonneg seed ltac:(lia)) as Hn.
    pose proof (next_range seed) as Hb. rewrite <- Hn in Hb.
    split; [exact Hb | ].
    rewrite assign_state_rem by (unfold max_exact_seed; lia).
    replace (seed * 1664525 + 1013904223 <? 0) with false
      by (symmetry; apply Z.ltb_ge; lia).
    destruct (Z.eqb_spec (next_rem seed) 0) as [-> | ]; reflexivity.
  - rewrite Nat.iter_succ, IH. apply assign_state_nonneg. rewrite pow53. lia.
Qed.

(** ** States that are not finite *)

Lemma assign_state_non_finite (state : number) :
  is_finite state = false -> assign_state state = S754_nan.
Proof.
  destruct state as [s | s | | s m e]; try discriminate; intros _;
    [destruct s | ]; reflexivity.
Qed.

Lemma return_value_nan (min max : number) : return_value S754_nan min max = S754_nan.
Proof.
  unfold return_value.
  change (div S754_nan (lit 2147483648)) with S754_nan.
  assert (forall x, mul S754_nan x = S754_nan) as -> by (intros []; reflexivity).
  change (floor S754_nan) with S754_nan.
  destruct min; reflexivity.
Qed.

Lemma draws_nan (calls : list (number * number)) :
  draws calls S754_nan = (map (fun _ => S754_nan) calls, S754_nan).
Proof.
  induction calls as [ | [min max] calls IH]; [reflexivity | ].
  cbn [draws map]. unfold draw.
  change (assign_state S754_nan) with S754_nan.
  rewrite return_value_nan, IH. reflexivity.
Qed.

(** ** The integer the assignment stores *)

(** Where the sum is a non-negative integer below [2^53], that is from
    [-609] to [5411272429], [%] is [mod] and the assignment stores the
    exact successor. *)
Lemma assign_state_mod (s : Z) :
  -609 <= s <= max_exact_seed -> assign_state (lit s) = lit (next s).
Proof.
  intros Hs. unfold max_exact_seed in Hs.
  rewrite assign_state_rem by (unfold max_exact_seed; lia).
  rewrite next_rem_nonneg by lia.
  replace (s * 1664525 + 1013904223 <? 0) with false
    by (symmetry; apply Z.ltb_ge; lia).
  destruct (Z.eqb_spec (next s) 0) as [-> | ]; reflexivity.
Qed.

Lemma to_Z_assign_state (s : Z) :
  Z.abs s <= max_exact_seed -> to_Z (assign_state (lit s)) = next_rem s.
Proof.
  intros Hs. rewrite (assign_state_rem s Hs).
  destruct (Z.eqb_spec (next_rem s) 0) as [-> | _]; [reflexivity | ].
  apply to_Z_lit. pose proof (next_rem_bound s) as Hb. unfold modulus in Hb.
  rewrite pow53. lia.
Qed.

Lemma to_Z_assign_state_iterated (n : nat) (seed : Z) :
  Z.abs seed <= max_exact_seed ->
  to_Z (assign_state (Nat.iter n assign_state (lit seed)))
  = next_rem (to_Z (Nat.iter n assign_state (lit seed))).
Proof.
  intros Hs.
  destruct (iterated_state_rem n seed Hs) as [Hr [-> | [_ ->]]].
  - rewrite (to_Z_assign_state _ Hr), to_Z_lit; [reflexivity | ].
    unfold max_exact_seed in Hr. rewrite pow53. lia.
  - rewrite assign_state_zero. reflexivity.
Qed.

(** From a zero or an integer below [2^53] the assignment stores an
    integer of magnitude below [2^31], and never the integer that was
    there. *)
Lemma assign_state_bounded (state : number) :
  safe_integer state ->
  is_integer (assign_state state) = true
  /\ Z.abs (to_Z (assign_state state)) < 2147483648.
Proof.
  intros Hs. destruct (assign_state_safe state Hs) as [[b ->] | [r [Hr ->]]].
  - split; [reflexivity | cbn [to_Z]; lia].
  - assert (Z.abs r < 2 ^ 53) as Hr53 by (rewrite pow53; lia).
    split; [apply is_integer_lit; exact Hr53 | ].
    rewrite to_Z_lit by exact Hr53. lia.
Qed.

Lemma assign_state_changes (state : number) :
  safe_integer state -> to_Z (assign_state state) <> to_Z state.
Proof.
  intros Hs. pose proof (assign_state_bounded state Hs) as [_ Hb].
  destruct Hs as [[b ->] | [n [Hn ->]]].
  - rewrite assign_state_zero. vm_compute. discriminate.
  - rewrite (to_Z_lit n Hn) in *.
    destruct (Z_le_gt_dec (Z.abs n) max_exact_seed) as [Hle | Hgt].
    + rewrite (to_Z_assign_state n Hle). apply next_rem_changes.
    + unfold max_exact_seed in Hgt. lia.
Qed.

End States.

(** * Properties of the generator *)

Module Properties.
Import Number Binary64 Random Generator Closure.

(** The state sequence is the exact one from every seed whose first
    product and sum stay below [2^53]. *)
Lemma iterated_state_exact (n : nat) (seed : Z) :
  0 <= seed <= Exact.max_exact_seed ->
  Nat.iter n assign_state (lit seed) = lit (Exact.state_after n seed)
  /\ (0 <= Exact.state_after n seed <= Exact.max_exact_seed).
Proof.
  intros Hs. induction n as [ | n [IH Hr]].
  - split; [reflexivity | exact Hs].
  - unfold Exact.state_after in *. rewrite !Nat.iter_succ, IH. split.
    + apply assign_state_exact; [lia | apply seed_exact_range; assumption].
    + pose proof (next_range (Nat.iter n Exact.next seed)).
      unfold Exact.max_exact_seed. lia.
Qed.

Lemma in_range_lit (min max v : Z) :
  Z.abs min < 2 ^ 53 -> Z.abs max < 2 ^ 53 -> Z.abs v < 2 ^ 53 ->
  in_range (lit min) (lit max) (lit v) = (min <=? v) && (v <? max).
Proof.
  intros Hmin Hmax Hv. unfold in_range.
  rewrite leb_lit, ltb_lit by assumption. reflexivity.
Qed.

Lemma assigned_integer_or_special (state : number) :
  assigned state -> is_integer state = true \/ is_finite state = false.
Proof.
  intros [-> | [[b ->] | [r [Hr ->]]]].
  - right. reflexivity.
  - left. reflexivity.
  - left. apply is_integer_lit. change (2 ^ 53) with 9007199254740992. lia.
Qed.

Lemma iterated_state_integer_or_special (n : nat) (seed : number) :
  is_integer seed = true ->
  is_integer (Nat.iter n assign_state seed) = true
  \/ is_finite (Nat.iter n assign_state seed) = false.
Proof.
  intros Hs. induction n as [ | n IH]; [left; exact Hs | ].
  rewrite Nat.iter_succ.
  apply assigned_integer_or_special, assign_state_assigned, IH.
Qed.

(** In the exact regime the call computes the two formulas of the
    specification, the value from the updated state. *)
Lemma draw_refines_exact (s min max : Z) :
  0 <= s <= Exact.max_exact_seed ->
  Z.abs min <= 2 ^ 52 -> Z.abs max <= 2 ^ 52 -> Z.abs (max - min) <= 2 ^ 22 ->
  draw (lit min) (lit max) (lit s)
  = (lit (Exact.value (Exact.next s) min max), lit (Exact.next s)).
Proof.
  intros Hs Hmin Hmax Hd. unfold draw.
  rewrite assign_state_exact by (try apply seed_exact_range; lia).
  rewrite return_value_exact by (try apply next_range; assumption).
  reflexivity.
Qed.

(** The body of the arrow function has no [throw]: every call of a
    generator returns normally. *)
Lemma call_never_throws (g : loc) (min max : number) (sigma : store)
      (c : completion) (sigma' : store) :
  call g min max sigma = Some (c, sigma') -> exists v, c = Normal v.
Proof.
  unfold call. destruct (sigma !! g) as [state | ]; [ | discriminate].
  unfold draw. intros [= <- _]. eexists. reflexivity.
Qed.

(** Outside the integers below [2^53] the scaling can reach [max]. *)
Example wide_bounds_reach_max :
  fst (draw (lit 9007199254740994) (lit 9007199254740996) (lit 400))
  = lit 9007199254740996.
Proof. vm_compute. reflexivity. Qed.

(** A seed whose product overflows leaves NaN in [state] for good. *)
Example overflowing_seed_yields_nan :
  draw (lit 1) (lit 10) (lit (2 ^ 1023)) = (S754_nan, S754_nan).
Proof. vm_compute. reflexivity. Qed.

(** The two operations written after ECMA-262, on values around their
    special cases. *)
Example rem_keeps_sign : (#(-7) mod #2)%js = lit (-1).
Proof. reflexivity. Qed.

Example rem_negative_zero : (#(-8) mod #2)%js = S754_zero true.
Proof. reflexivity. Qed.

Example rem_fraction : ((#15 / #2) mod #2)%js = (#3 / #2)%js.
Proof. reflexivity. Qed.

Example rem_by_zero : (#5 mod #0)%js = S754_nan.
Proof. reflexivity. Qed.

Example floor_negative_half : floor (#(-1) / #2)%js = lit (-1).
Proof. reflexivity. Qed.

Example floor_positive_half : floor (#7 / #2)%js = lit 3.
Proof. reflexivity. Qed.

Example lit_ties_to_even : lit (2 ^ 53 + 1) = lit (2 ^ 53).
Proof. reflexivity. Qed.

(** ** The properties of the specification *)

(** C1, counterexample.  The specification states: for every integer seed and
    every draw with finite inputs and [max > min], [min <= v < max].
    With seed [-1000] the first draw on [(1, 10)] returns [-2]: the
    remainder [%] keeps the negative sign of
    [-1000 * 1664525 + 1013904223 = -650620777].  With seed [400] and the
    bounds [(2^53 + 2, 2^53 + 4)] the first draw returns [max]: the sum
    [floor(..) + min = 2^53 + 3] is not a number and rounds to [2^53 + 4].
    With seed [2^1023] the product overflows and the draw returns NaN. *)
Lemma draw_out_of_range :
  (fst (draw (lit 1) (lit 10) (lit (-1000))) = lit (-2)
   /\ in_range (lit 1) (lit 10) (fst (draw (lit 1) (lit 10) (lit (-1000)))) = false)
  /\ (fst (draw (lit 9007199254740994) (lit 9007199254740996) (lit 400))
      = lit 9007199254740996
      /\ in_range (lit 9007199254740994) (lit 9007199254740996)
           (fst (draw (lit 9007199254740994) (lit 9007199254740996) (lit 400)))
         = false)
  /\ (fst (draw (lit 1) (lit 10) (lit (2 ^ 1023))) = S754_nan
      /\ in_range (lit 1) (lit 10) (fst (draw (lit 1) (lit 10) (lit (2 ^ 1023)))) = false).
Proof. repeat split; vm_compute; reflexivity. Qed.

(** C1, amended.  For every integer seed with [0 <= seed < 2^53], after
    any run of earlier calls, and for all integer bounds [min < max]
    that are below [2^53] in magnitude together with their difference,
    the value [v] returned by a draw satisfies [min <= v < max]. *)
Theorem draw_in_range (seed : Z) (calls : list (number * number)) (min max : Z) :
  0 <= seed < 2 ^ 53 ->
  Z.abs min < 2 ^ 53 -> Z.abs max < 2 ^ 53 -> max - min < 2 ^ 53 -> min < max ->
  in_range (lit min) (lit max)
    (fst (draw (lit min) (lit max) (snd (draws calls (lit seed))))) = true.
Proof.
  intros Hseed Hmin Hmax Hd Hlt.
  rewrite draws_state. unfold draw. cbn [fst].
  rewrite <- Nat.iter_succ.
  destruct (iterated_state_nonneg (length calls) seed Hseed) as [r [Hr ->]].
  destruct (return_value_spec r min max Hr Hmin Hmax ltac:(lia)) as [v [-> [Hv _]]].
  specialize (Hv Hlt).
  rewrite in_range_lit by lia.
  apply andb_true_iff. split; [apply Z.leb_le | apply Z.ltb_lt]; lia.
Qed.

Lemma draw_in_range_witness :
  in_range (lit 1) (lit 10)
    (fst (draw (lit 1) (lit 10) (snd (draws [(lit 0, lit 3)] (lit 42))))) = true.
Proof.
  apply (draw_in_range 42 [(lit 0, lit 3)] 1 10); vm_compute; intuition discriminate.
Defined.

(** C2.  [const random = seededRandom(1)] followed by four calls
    [random(1, 10)] returns [5, 7, 1, 4]. *)
Theorem known_vector (sigma : store) :
  exists sigma',
    call_all (fst (seededRandom (lit 1) sigma))
      [(lit 1, lit 10); (lit 1, lit 10); (lit 1, lit 10); (lit 1, lit 10)]
      (snd (seededRandom (lit 1) sigma))
    = Some ([Normal (lit 5); Normal (lit 7); Normal (lit 1); Normal (lit 4)], sigma').
Proof.
  assert (fst (draws [(lit 1, lit 10); (lit 1, lit 10); (lit 1, lit 10); (lit 1, lit 10)]
                 (lit 1))
          = [lit 5; lit 7; lit 1; lit 4]) as Hv by (vm_compute; reflexivity).
  rewrite (call_all_eq _ _ (lit 1)) by apply seededRandom_state.
  rewrite Hv. eexists. reflexivity.
Qed.

(** C3.  The values a generator returns are determined by its seed and
    the calls it is fed: there is one list [out] that every generator
    constructed from [seed], in whatever store, returns on [calls]; in
    particular two generators constructed one after the other from the
    same seed and fed the same calls in the same order both return it. *)
Theorem same_seed_same_outputs (seed : number) (calls : list (number * number)) :
  exists out : list completion,
    (forall sigma : store,
        exists sigma',
          call_all (fst (seededRandom seed sigma)) calls (snd (seededRandom seed sigma))
          = Some (out, sigma'))
    /\ (forall sigma : store,
          let a := seededRandom seed sigma in
          let b := seededRandom seed (snd a) in
          exists sigma3 sigma4,
            call_all (fst a) calls (snd b) = Some (out, sigma3)
            /\ call_all (fst b) calls sigma3 = Some (out, sigma4)).
Proof.
  exists (map Normal (fst (draws calls seed))). split.
  - intros sigma. eexists. apply call_all_eq, seededRandom_state.
  - intros sigma a b.
    pose proof (seededRandom_distinct seed seed sigma) as Hab. fold a b in Hab.
    assert (snd b !! fst a = Some seed) as Ha.
    { unfold b. rewrite seededRandom_frame by exact Hab. apply seededRandom_state. }
    rewrite (call_all_eq _ _ seed _ Ha).
    do 2 eexists. split; [reflexivity | ].
    apply call_all_eq.
    rewrite lookup_insert_ne by exact Hab. apply seededRandom_state.
Qed.

(** C4, counterexample.  The specification states: each call updates the state
    to [(state * 1664525 + 1013904223) mod 2147483648] and computes the
    value from it.  The source writes [%], which keeps the sign of the
    dividend: on the state [-1000] the call [(1, 10)] stores
    [-650620777] and returns [-2], where the formulas of the
    specification give the state [1496862871] and the value [7]. *)
Lemma negative_state_update_is_not_mod :
  call 0%nat (lit 1) (lit 10) (<[0%nat := lit (-1000)]> ∅)
  = Some (Normal (lit (-2)), <[0%nat := lit (-650620777)]> ∅)
  /\ Exact.next (-1000) = 1496862871
  /\ Exact.value (Exact.next (-1000)) 1 10 = 7
  /\ lit (-650620777) <> lit 1496862871
  /\ lit (-2) <> lit 7.
Proof.
  split.
  - rewrite (call_eq 0%nat _ _ (lit (-1000))) by apply lookup_insert_eq.
    rewrite insert_insert_eq.
    assert (assign_state (lit (-1000)) = lit (-650620777)) as ->
        by (vm_compute; reflexivity).
    assert (return_value (lit (-650620777)) (lit 1) (lit 10) = lit (-2)) as ->
        by (vm_compute; reflexivity).
    reflexivity.
  - repeat split; vm_compute; try reflexivity; discriminate.
Qed.

(** C4, amended.  For every integer state [s] with
    [-609 <= s <= 5411272429] (where [s * 1664525 + 1013904223] is a
    non-negative integer below [2^53]) and all integer bounds of
    magnitude at most [2^52] and at most [2^22] apart, a call first
    updates the state to [s' = (s * 1664525 + 1013904223) mod 2147483648]
    and returns [floor((s' / 2147483648) * (max - min)) + min], computed
    from the updated state [s'], which is never the state [s] the call
    found; so does the first call of a new generator, whose value comes
    from the transformed seed. *)
Theorem state_assigned_before_value
        (g : loc) (s lo hi : Z) (sigma : store) :
  -609 <= s <= Exact.max_exact_seed ->
  Z.abs lo <= 2 ^ 52 -> Z.abs hi <= 2 ^ 52 -> Z.abs (hi - lo) <= 2 ^ 22 ->
  let s' := Exact.next s in
  let v := Exact.value s' lo hi in
  call g (lit lo) (lit hi) (<[g := lit s]> sigma)
  = Some (Normal (lit v), <[g := lit s']> sigma)
  /\ call (fst (seededRandom (lit s) sigma)) (lit lo) (lit hi)
       (snd (seededRandom (lit s) sigma))
     = Some (Normal (lit v), <[fst (seededRandom (lit s) sigma) := lit s']> sigma)
  /\ s' <> s.
Proof.
  intros Hs Hlo Hhi Hd s' v.
  assert (draw (lit lo) (lit hi) (lit s) = (lit v, lit s')) as Hdraw.
  { unfold draw. rewrite (States.assign_state_mod s Hs).
    rewrite return_value_exact by (try apply next_range; assumption).
    reflexivity. }
  unfold draw in Hdraw. injection Hdraw as Hv Hs'.
  split; [ | split].
  - rewrite (call_eq g _ _ (lit s)) by apply lookup_insert_eq.
    rewrite insert_insert_eq, Hv, Hs'. reflexivity.
  - rewrite (call_eq _ _ _ (lit s)) by apply seededRandom_state.
    unfold seededRandom. cbn [fst snd]. rewrite insert_insert_eq, Hv, Hs'.
    reflexivity.
  - apply Sequence.next_changes.
Qed.

Lemma state_assigned_before_value_witness :
  call 0%nat (lit 1) (lit 10) (<[0%nat := lit (-5)]> ∅)
  = Some (Normal (lit (Exact.value (Exact.next (-5)) 1 10)),
          <[0%nat := lit (Exact.next (-5))]> ∅)
  /\ call (fst (seededRandom (lit (-5)) ∅)) (lit 1) (lit 10)
       (snd (seededRandom (lit (-5)) ∅))
     = Some (Normal (lit (Exact.value (Exact.next (-5)) 1 10)),
             <[fst (seededRandom (lit (-5)) ∅) := lit (Exact.next (-5))]> ∅)
  /\ Exact.next (-5) <> -5.
Proof.
  apply (state_assigned_before_value 0%nat (-5) 1 10 ∅);
    vm_compute; intuition discriminate.
Defined.

(** C5, counterexample.  The specification states: a draw with [max <= min]
    raises [InvalidRangeError].  On a generator of seed [1] the call
    [(5, 5)] returns [5], and so does the call [(7, 3)]: nothing is
    thrown. *)
Lemma degenerate_range_returns_normally :
  call 0%nat (lit 5) (lit 5) (<[0%nat := lit 1]> ∅)
  = Some (Normal (lit 5), <[0%nat := lit 1015568748]> ∅)
  /\ call 0%nat (lit 7) (lit 3) (<[0%nat := lit 1]> ∅)
     = Some (Normal (lit 5), <[0%nat := lit 1015568748]> ∅)
  /\ forall sigma : store,
      call 0%nat (lit 5) (lit 5) (<[0%nat := lit 1]> ∅)
      <> Some (Throw "InvalidRangeError", sigma)
      /\ call 0%nat (lit 7) (lit 3) (<[0%nat := lit 1]> ∅)
         <> Some (Throw "InvalidRangeError", sigma).
Proof.
  assert (forall min max : number,
             return_value (lit 1015568748) min max = lit 5 ->
             call 0%nat min max (<[0%nat := lit 1]> ∅)
             = Some (Normal (lit 5), <[0%nat := lit 1015568748]> ∅)) as H.
  { intros min max Hv.
    rewrite (call_eq 0%nat _ _ (lit 1)) by apply lookup_insert_eq.
    rewrite insert_insert_eq.
    assert (assign_state (lit 1) = lit 1015568748) as -> by (vm_compute; reflexivity).
    rewrite Hv. reflexivity. }
  pose proof (H (lit 5) (lit 5) ltac:(vm_compute; reflexivity)) as H55.
  pose proof (H (lit 7) (lit 3) ltac:(vm_compute; reflexivity)) as H73.
  split; [exact H55 | ]. split; [exact H73 | ].
  intros sigma. rewrite H55, H73. split; discriminate.
Qed.

(** C5, amended.  For every generator state a draw with [min == max] or
    [max < min] raises no error: it advances the state and returns
    [Math.floor((state / 2147483648) * (max - min)) + min] like any other
    draw.  For a state reached from an integer seed [0 <= seed < 2^53]
    and integer bounds [max <= min] that are below [2^53] in magnitude
    together with their difference, that value is an integer [v] with
    [max <= v <= min]. *)
Theorem degenerate_range_returns_value
        (g : loc) (state min max : number) (sigma : store) :
  call g min max (<[g := state]> sigma)
  = Some (Normal (return_value (assign_state state) min max),
          <[g := assign_state state]> sigma)
  /\ forall (seed : Z) (calls : list (number * number)) (lo hi : Z),
      0 <= seed < 2 ^ 53 ->
      Z.abs lo < 2 ^ 53 -> Z.abs hi < 2 ^ 53 -> lo - hi < 2 ^ 53 -> hi <= lo ->
      state = snd (draws calls (lit seed)) -> min = lit lo -> max = lit hi ->
      exists v, return_value (assign_state state) min max = lit v /\ hi <= v <= lo.
Proof.
  split.
  - rewrite (call_eq g min max state) by apply lookup_insert_eq.
    rewrite insert_insert_eq. reflexivity.
  - intros seed calls lo hi Hseed Hlo Hhi Hd Hle -> -> ->.
    rewrite draws_state, <- Nat.iter_succ.
    destruct (iterated_state_nonneg (length calls) seed Hseed) as [r [Hr ->]].
    destruct (return_value_spec r lo hi Hr Hlo Hhi ltac:(lia)) as [v [-> [_ [Hrev Heq]]]].
    exists v. split; [reflexivity | ]. lia.
Qed.

Lemma degenerate_range_returns_value_witness :
  exists v, return_value (assign_state (lit 1)) (lit 7) (lit 3) = lit v /\ 3 <= v <= 7.
Proof.
  apply (proj2 (degenerate_range_returns_value 0%nat (lit 1) (lit 7) (lit 3) ∅)
           1 [] 7 3);
    try reflexivity; vm_compute; intuition discriminate.
Defined.

(** C6, counterexample.  The specification states: for every seed in the integer
    range of the platform the assignment computes the exact successor.
    The seed [2^53 - 1] is a number, yet its product with [1664525] has
    74 bits and is rounded: the state assigned is [1010827264], the exact
    successor is [1012239698].  With the seed [-1000] nothing is rounded,
    but [%] keeps the sign: the state assigned is [-650620777], the exact
    successor is [1496862871]. *)
Lemma large_seed_loses_precision :
  (to_Z (lit 9007199254740991) = 9007199254740991
   /\ assign_state (lit 9007199254740991) = lit 1010827264
   /\ Exact.next 9007199254740991 = 1012239698
   /\ lit 1010827264 <> lit 1012239698)
  /\ (assign_state (lit (-1000)) = lit (-650620777)
      /\ Exact.next (-1000) = 1496862871
      /\ lit (-650620777) <> lit 1496862871).
Proof. repeat split; vm_compute; try reflexivity; discriminate. Qed.

(** C6, amended.  For every integer seed with
    [0 <= seed <= 5411272429] (so that [seed * 1664525 + 1013904223]
    is below [2^53]) the states of a run are those of the exact
    sequence [x' = (x * 1664525 + 1013904223) mod 2147483648], and at
    each of them the product and the sum of the next assignment are
    computed without rounding. *)
Theorem state_sequence_exact (seed : Z) (calls : list (number * number)) :
  0 <= seed <= Exact.max_exact_seed ->
  let x := Exact.state_after (length calls) seed in
  snd (draws calls (lit seed)) = lit x
  /\ (lit x * #1664525)%js = lit (x * 1664525)
  /\ (lit x * #1664525 + #1013904223)%js = lit (x * 1664525 + 1013904223)
  /\ assign_state (lit x) = lit (Exact.next x).
Proof.
  intros Hseed x.
  destruct (iterated_state_exact (length calls) seed Hseed) as [Hst Hx]. fold x in Hst, Hx.
  pose proof (seed_exact_range x Hx) as Hb.
  change (2 ^ 53) with 9007199254740992 in Hb.
  assert ((lit x * #1664525)%js = lit (x * 1664525)) as Hmul
      by (apply mul_lit; change (2 ^ 53) with 9007199254740992; lia).
  rewrite draws_state, Hst, Hmul. repeat split.
  - apply add_lit; change (2 ^ 53) with 9007199254740992; lia.
  - apply assign_state_exact; [lia | apply seed_exact_range; assumption].
Qed.

Lemma state_sequence_exact_witness :
  snd (draws [(lit 1, lit 10); (lit 0, lit 2)] (lit 1)) = lit 1586005467.
Proof.
  apply (state_sequence_exact 1 [(lit 1, lit 10); (lit 0, lit 2)]).
  vm_compute. intuition discriminate.
Defined.

(** C7.  For every generator (every integral seed of any magnitude, at
    any point of its life) a draw on [(0, 2147483648)] never returns
    [2147483648]. *)
Theorem full_range_excludes_modulus
        (seed : number) (calls : list (number * number)) :
  is_integer seed = true ->
  (fst (draw #0 #2147483648 (snd (draws calls seed))) === #2147483648)%js = false.
Proof.
  intros Hseed. rewrite draws_state. unfold draw. cbn [fst].
  apply return_value_full_range, assign_state_assigned.
  apply iterated_state_integer_or_special. assumption.
Qed.

Lemma full_range_excludes_modulus_witness :
  (fst (draw #0 #2147483648 (snd (draws [(lit 1, lit 10)] (lit 2147483647))))
   === #2147483648)%js = false.
Proof.
  apply (full_range_excludes_modulus (lit 2147483647) [(lit 1, lit 10)]).
  reflexivity.
Defined.

(** C8.  A call of a generator returns normally and changes the store at
    that generator's own environment only: the state of every other
    generator is what it was.  Two generators constructed from the same
    seed have distinct environments, so a call of the first leaves the
    second with its seed. *)
Theorem draw_frame (seed min max : number) (sigma : store) :
  (forall (g : loc) (c : completion) (sigma' : store),
      call g min max sigma = Some (c, sigma') ->
      (exists v state,
          c = Normal v /\ sigma !! g = Some state
          /\ sigma' = <[g := assign_state state]> sigma)
      /\ forall l : loc, l <> g -> sigma' !! l = sigma !! l)
  /\ let a := seededRandom seed sigma in
     let b := seededRandom seed (snd a) in
     fst a <> fst b
     /\ snd b !! fst a = Some seed
     /\ exists v,
         call (fst a) min max (snd b)
         = Some (Normal v, <[fst a := assign_state seed]> (snd b))
         /\ <[fst a := assign_state seed]> (snd b) !! fst b = Some seed.
Proof.
  split.
  - intros g c sigma' Hcall. unfold call in Hcall.
    destruct (sigma !! g) as [state | ] eqn:Hg; [ | discriminate].
    unfold draw in Hcall. injection Hcall as <- <-. split.
    + do 2 eexists. repeat split; reflexivity.
    + intros l Hl. apply lookup_insert_ne. congruence.
  - intros a b.
    pose proof (seededRandom_distinct seed seed sigma) as Hab. fold a b in Hab.
    assert (snd b !! fst a = Some seed) as Ha.
    { unfold b. rewrite seededRandom_frame by exact Hab. apply seededRandom_state. }
    split; [exact Hab | ]. split; [exact Ha | ].
    eexists. split; [apply call_eq; exact Ha | ].
    rewrite lookup_insert_ne by exact Hab. apply seededRandom_state.
Qed.

Lemma draw_frame_witness :
  <[0%nat := lit 1015568748]> (<[1%nat := lit 1]> (<[0%nat := lit 1]> (∅ : store)))
  !! 1%nat
  = <[1%nat := lit 1]> (<[0%nat := lit 1]> (∅ : store)) !! 1%nat.
Proof.
  refine (proj2 (proj1 (draw_frame (lit 1) (lit 1) (lit 10)
                          (<[1%nat := lit 1]> (<[0%nat := lit 1]> ∅)))
                   0%nat (Normal (lit 5)) _ _)
            1%nat _).
  - rewrite (call_eq 0%nat _ _ (lit 1))
      by (rewrite lookup_insert_ne by discriminate; apply lookup_insert_eq).
    assert (assign_state (lit 1) = lit 1015568748) as -> by (vm_compute; reflexivity).
    assert (return_value (lit 1015568748) (lit 1) (lit 10) = lit 5) as ->
        by (vm_compute; reflexivity).
    reflexivity.
  - discriminate.
Defined.

(** C9, counterexample.  The specification states: for every generator state a
    draw on [(min, min)] returns exactly [min] and advances the state by
    one step of the sequence.  From the state [2^1023] the product
    overflows: the call [(5, 5)] stores NaN and returns NaN, which is
    not [5]. *)
Lemma empty_range_returns_nan :
  call 0%nat (lit 5) (lit 5) (<[0%nat := lit (2 ^ 1023)]> ∅)
  = Some (Normal S754_nan, <[0%nat := S754_nan]> ∅)
  /\ (S754_nan === lit 5)%js = false.
Proof.
  split; [ | reflexivity].
  rewrite (call_eq 0%nat _ _ (lit (2 ^ 1023))) by apply lookup_insert_eq.
  rewrite insert_insert_eq.
  assert (assign_state (lit (2 ^ 1023)) = S754_nan) as -> by (vm_compute; reflexivity).
  rewrite States.return_value_nan. reflexivity.
Qed.

(** C9, amended.  For every state reached from an integer seed of
    magnitude below [2^53] and every finite [min], a draw on [(min, min)]
    raises no error and returns [min] (equal to it under [===], and
    identical to it unless [min] is the negative zero), and the state is
    advanced all the same: the state stored is an integer of magnitude
    below [2^31] other than the integer the call found; for
    [|seed| <= 5411272429] it is
    [(x * 1664525 + 1013904223) % 2147483648] of the integer [x] found,
    and for [0 <= seed <= 5411272429] that is the step
    [(x * 1664525 + 1013904223) mod 2147483648] of the exact sequence. *)
Theorem empty_range_returns_min
        (seed : Z) (calls : list (number * number)) (min : number)
        (g : loc) (sigma : store) :
  Z.abs seed < 2 ^ 53 -> is_finite min = true ->
  let state := snd (draws calls (lit seed)) in
  exists v state',
    call g min min (<[g := state]> sigma) = Some (Normal v, <[g := state']> sigma)
    /\ ((v === min)%js = true /\ (min <> S754_zero true -> v = min))
    /\ (is_integer state' = true
        /\ Z.abs (to_Z state') < 2147483648
        /\ to_Z state' <> to_Z state)
    /\ (Z.abs seed <= Exact.max_exact_seed ->
        to_Z state' = Orbit.next_rem (to_Z state))
    /\ (0 <= seed <= Exact.max_exact_seed ->
        to_Z state' = Exact.next (to_Z state)).
Proof.
  intros Hseed Hmin state.
  assert (safe_integer state) as Hsafe.
  { unfold state. rewrite draws_state. apply iterated_state_safe.
    right. exists seed. split; [assumption | reflexivity]. }
  exists (return_value (assign_state state) min min), (assign_state state).
  split; [ | split; [ | split; [ | split]]].
  - rewrite (call_eq g min min state) by apply lookup_insert_eq.
    rewrite insert_insert_eq. reflexivity.
  - apply return_value_empty_range; [ | assumption].
    apply assign_state_safe. exact Hsafe.
  - pose proof (States.assign_state_bounded state Hsafe) as [Hi Hb].
    split; [exact Hi | ]. split; [exact Hb | ].
    apply States.assign_state_changes. exact Hsafe.
  - intros Hexact. unfold state. rewrite draws_state.
    apply States.to_Z_assign_state_iterated. exact Hexact.
  - intros Hexact. unfold state. rewrite draws_state.
    destruct (iterated_state_exact (length calls) seed Hexact) as [-> Hx].
    rewrite assign_state_exact by (try apply seed_exact_range; lia).
    unfold Exact.max_exact_seed in Hx.
    rewrite !to_Z_lit; [reflexivity | | ].
    + change (2 ^ 53) with 9007199254740992. lia.
    + pose proof (next_range (Exact.state_after (length calls) seed)).
      change (2 ^ 53) with 9007199254740992. lia.
Qed.

Lemma empty_range_returns_min_witness :
  exists v state',
    call 0%nat (lit 5) (lit 5) (<[0%nat := snd (draws [(lit 1, lit 10)] (lit 42))]> ∅)
    = Some (Normal v, <[0%nat := state']> ∅)
    /\ ((v === lit 5)%js = true /\ (lit 5 <> S754_zero true -> v = lit 5))
    /\ (is_integer state' = true
        /\ Z.abs (to_Z state') < 2147483648
        /\ to_Z state' <> to_Z (snd (draws [(lit 1, lit 10)] (lit 42))))
    /\ (Z.abs 42 <= Exact.max_exact_seed ->
        to_Z state'
        = Orbit.next_rem (to_Z (snd (draws [(lit 1, lit 10)] (lit 42)))))
    /\ (0 <= 42 <= Exact.max_exact_seed ->
        to_Z state'
        = Exact.next (to_Z (snd (draws [(lit 1, lit 10)] (lit 42))))).
Proof.
  apply (empty_range_returns_min 42 [(lit 1, lit 10)] (lit 5) 0%nat ∅);
    vm_compute; intuition discriminate.
Defined.

(** C10.  The state after a run is the seed assigned once per call,
    whatever the bounds: two generators constructed from the same seed
    and given runs of the same length, with arbitrary bounds, end in the
    same state. *)
Theorem state_independent_of_bounds
        (seed : number) (calls1 calls2 : list (number * number)) (sigma : store) :
  length calls1 = length calls2 ->
  let a := seededRandom seed sigma in
  let b := seededRandom seed (snd a) in
  exists out1 out2 sigma3 sigma4,
    call_all (fst a) calls1 (snd b) = Some (out1, sigma3)
    /\ call_all (fst b) calls2 sigma3 = Some (out2, sigma4)
    /\ sigma4 !! fst a = Some (Nat.iter (length calls1) assign_state seed)
    /\ sigma4 !! fst b = sigma4 !! fst a.
Proof.
  intros Hlen a b.
  pose proof (seededRandom_distinct seed seed sigma) as Hab. fold a b in Hab.
  assert (snd b !! fst a = Some seed) as Ha.
  { unfold b. rewrite seededRandom_frame by exact Hab. apply seededRandom_state. }
  rewrite (call_all_eq _ _ seed _ Ha).
  do 4 eexists. split; [reflexivity | ]. split.
  - apply call_all_eq.
    rewrite lookup_insert_ne by exact Hab. apply seededRandom_state.
  - rewrite lookup_insert_eq, lookup_insert_ne, lookup_insert_eq by congruence.
    rewrite !draws_state, Hlen. split; reflexivity.
Qed.

Lemma state_independent_of_bounds_witness :
  let a := seededRandom (lit 1) ∅ in
  let b := seededRandom (lit 1) (snd a) in
  exists out1 out2 sigma3 sigma4,
    call_all (fst a) [(lit 1, lit 10)] (snd b) = Some (out1, sigma3)
    /\ call_all (fst b) [(lit (-5), lit 700)] sigma3 = Some (out2, sigma4)
    /\ sigma4 !! fst a = Some (Nat.iter 1 assign_state (lit 1))
    /\ sigma4 !! fst b = sigma4 !! fst a.
Proof.
  apply (state_independent_of_bounds (lit 1) [(lit 1, lit 10)] [(lit (-5), lit 700)] ∅).
  reflexivity.
Defined.

End Properties.

(** * Further properties of the generator *)

Module Behaviour.
Import Number Binary64 Random Generator Closure Exact Orbit Sequence States.

(** X1.  The generator has full period: from an integer seed
    [0 <= seed < 2^31] the state is back at the seed after a run of
    calls exactly when the number of calls is a multiple of [2^31]. *)
Theorem full_period (seed : Z) (calls : list (number * number)) :
  0 <= seed < 2147483648 ->
  snd (draws calls (lit seed)) = lit seed
  <-> (2147483648 | Z.of_nat (length calls)).
Proof.
  intros Hs. rewrite draws_state.
  destruct (Properties.iterated_state_exact (length calls) seed
              ltac:(unfold max_exact_seed; lia)) as [-> _].
  pose proof (state_after_bounds (length calls) seed Hs) as Hr.
  pose proof (state_after_returns (length calls) seed Hs) as Hp.
  unfold modulus in Hr, Hp. rewrite <- Hp. split.
  - intros H. apply lit_injective in H; rewrite ?pow53; lia.
  - intros ->. reflexivity.
Qed.

Lemma full_period_witness :
  snd (draws [(lit 1, lit 10); (lit 0, lit 2)] (lit 7)) = lit 7
  <-> (2147483648 | Z.of_nat (length [(lit 1, lit 10); (lit 0, lit 2)])).
Proof. apply (full_period 7 [(lit 1, lit 10); (lit 0, lit 2)]). lia. Defined.

(** X2.  After any number of calls every state [0 <= t < 2^31] is
    reached from exactly one seed in [0, 2^31): a run of calls permutes
    the seeds, so that distinct seeds never merge and no state is
    unreachable. *)
Theorem run_permutes_seeds (calls : list (number * number)) (t : Z) :
  0 <= t < 2147483648 ->
  exists seed,
    (0 <= seed < 2147483648 /\ snd (draws calls (lit seed)) = lit t)
    /\ forall seed' : Z,
        0 <= seed' < 2147483648 ->
        snd (draws calls (lit seed')) = lit t -> seed' = seed.
Proof.
  intros Ht.
  assert (forall s, 0 <= s < 2147483648 ->
                    snd (draws calls (lit s)) = lit (state_after (length calls) s)
                    /\ 0 <= state_after (length calls) s < 2147483648) as Hst.
  { intros s Hs. rewrite draws_state.
    destruct (Properties.iterated_state_exact (length calls) s
                ltac:(unfold max_exact_seed; lia)) as [-> _].
    split; [reflexivity | apply (state_after_bounds _ _ Hs)]. }
  destruct (state_after_surjective (length calls) t Ht) as [seed [Hs Hseed]].
  unfold modulus in Hs.
  exists seed. split.
  - split; [exact Hs | ]. rewrite (proj1 (Hst seed Hs)), Hseed. reflexivity.
  - intros seed' Hs' H.
    destruct (Hst seed' Hs') as [Heq Hb]. rewrite Heq in H.
    apply lit_injective in H; [ | rewrite pow53; lia | rewrite pow53; lia].
    apply (state_after_injective (length calls)); [exact Hs' | exact Hs | ].
    rewrite H, Hseed. reflexivity.
Qed.

Lemma run_permutes_seeds_witness :
  exists seed,
    (0 <= seed < 2147483648
     /\ snd (draws [(lit 1, lit 10); (lit 0, lit 2)] (lit seed)) = lit 12345)
    /\ forall seed' : Z,
        0 <= seed' < 2147483648 ->
        snd (draws [(lit 1, lit 10); (lit 0, lit 2)] (lit seed')) = lit 12345 ->
        seed' = seed.
Proof. apply (run_permutes_seeds [(lit 1, lit 10); (lit 0, lit 2)] 12345). lia. Defined.

(** X3.  Only the seed modulo [2^31] matters: two integer seeds in
    [0, 5411272429] that are congruent modulo [2^31] give the same values
    and the same final state on every non-empty run of calls. *)
Theorem congruent_seeds_same_run
        (seed1 seed2 : Z) (min max : number) (calls : list (number * number)) :
  0 <= seed1 <= max_exact_seed -> 0 <= seed2 <= max_exact_seed ->
  seed1 mod 2147483648 = seed2 mod 2147483648 ->
  draws ((min, max) :: calls) (lit seed1) = draws ((min, max) :: calls) (lit seed2).
Proof.
  intros H1 H2 Hc. cbn [draws]. unfold draw.
  rewrite !assign_state_exact by (try apply seed_exact_range; lia).
  rewrite (next_congruent seed1 seed2 Hc). reflexivity.
Qed.

Lemma congruent_seeds_same_run_witness :
  draws [(lit 1, lit 10); (lit 0, lit 2)] (lit 1)
  = draws [(lit 1, lit 10); (lit 0, lit 2)] (lit 2147483649).
Proof.
  apply (congruent_seeds_same_run 1 2147483649 (lit 1) (lit 10) [(lit 0, lit 2)]);
    vm_compute; intuition discriminate.
Defined.

(** X4.  On the range [(0, 2^k)], [0 <= k <= 31], a draw returns the [k]
    high bits of the 31-bit state it has just assigned: the value is
    [state >> (31 - k)], and on [(0, 2^31)] it is the state itself.  This
    holds after any run of calls from an integer seed
    [0 <= seed < 2^53]. *)
Theorem power_of_two_range_high_bits
        (seed : Z) (calls : list (number * number)) (k : Z) :
  0 <= seed < 2 ^ 53 -> 0 <= k <= 31 ->
  exists r,
    0 <= r < 2147483648
    /\ draw (lit 0) (lit (2 ^ k)) (snd (draws calls (lit seed)))
       = (lit (r / 2 ^ (31 - k)), lit r).
Proof.
  intros Hseed Hk. rewrite draws_state. unfold draw.
  rewrite <- Nat.iter_succ.
  destruct (iterated_state_nonneg (length calls) seed Hseed) as [r [Hr ->]].
  exists r. split; [exact Hr | ].
  rewrite return_value_pow2 by assumption. reflexivity.
Qed.

Lemma power_of_two_range_high_bits_witness :
  exists r,
    0 <= r < 2147483648
    /\ draw (lit 0) (lit (2 ^ 4)) (snd (draws [(lit 1, lit 10)] (lit 1)))
       = (lit (r / 2 ^ (31 - 4)), lit r).
Proof.
  apply (power_of_two_range_high_bits 1 [(lit 1, lit 10)] 4);
    vm_compute; intuition discriminate.
Defined.

(** X5.  A state that is not finite never recovers: if the captured
    variable holds NaN or an infinity (a generator constructed from such
    a seed), every call returns NaN, whatever the bounds, and leaves NaN
    in the state. *)
Theorem non_finite_state_yields_nan
        (state min max : number) (calls : list (number * number)) :
  is_finite state = false ->
  draws ((min, max) :: calls) state
  = (map (fun _ => S754_nan) ((min, max) :: calls), S754_nan).
Proof.
  intros Hs. cbn [draws map]. unfold draw.
  rewrite (assign_state_non_finite state Hs), return_value_nan, draws_nan.
  reflexivity.
Qed.

Lemma non_finite_state_yields_nan_witness :
  draws [(lit 1, lit 10); (lit 0, lit 2)] (S754_infinity true)
  = (map (fun _ => S754_nan) [(lit 1, lit 10); (lit 0, lit 2)], S754_nan).
Proof.
  apply (non_finite_state_yields_nan (S754_infinity true) (lit 1) (lit 10)
           [(lit 0, lit 2)]).
  reflexivity.
Defined.

(** X6.  From an integer seed of either sign with
    [|seed| <= 5411272429] nothing is rounded: after any run of calls
    the state is an integer, the one given by the recurrence
    [x' = (x * 1664525 + 1013904223) % 2147483648] with the truncating
    remainder of [%], which keeps the sign of the dividend. *)
Theorem state_follows_remainder (seed : Z) (calls : list (number * number)) :
  Z.abs seed <= max_exact_seed ->
  is_integer (snd (draws calls (lit seed))) = true
  /\ to_Z (snd (draws calls (lit seed))) = Nat.iter (length calls) next_rem seed.
Proof.
  intros Hs. rewrite draws_state.
  destruct (iterated_state_rem (length calls) seed Hs) as [Hr [-> | [Hr0 ->]]].
  - unfold max_exact_seed in Hr.
    split; [apply is_integer_lit | apply to_Z_lit]; rewrite pow53; lia.
  - split; [reflexivity | ]. rewrite Hr0. reflexivity.
Qed.

Lemma state_follows_remainder_witness :
  is_integer (snd (draws [(lit 1, lit 10); (lit 0, lit 2)] (lit (-1000)))) = true
  /\ to_Z (snd (draws [(lit 1, lit 10); (lit 0, lit 2)] (lit (-1000))))
     = Nat.iter (length [(lit 1, lit 10); (lit 0, lit 2)]) next_rem (-1000).
Proof.
  apply (state_follows_remainder (-1000) [(lit 1, lit 10); (lit 0, lit 2)]).
  vm_compute. discriminate.
Defined.

(** X7.  A negative state puts every draw out of range: when the
    recurrence with [%] gives a negative state for a call (seed of
    magnitude at most [5411272429]), that call, on integer bounds
    [min < max] below [2^53] in magnitude together with [max - min] and
    [2 * min - max], returns an integer [v] with
    [2 * min - max <= v < min]. *)
Theorem negative_state_draws_below_min
        (seed : Z) (calls : list (number * number)) (min max : Z) :
  Z.abs seed <= max_exact_seed ->
  Nat.iter (S (length calls)) next_rem seed < 0 ->
  Z.abs min < 2 ^ 53 -> Z.abs max < 2 ^ 53 -> max - min < 2 ^ 53 ->
  Z.abs (2 * min - max) < 2 ^ 53 -> min < max ->
  exists v,
    fst (draw (lit min) (lit max) (snd (draws calls (lit seed)))) = lit v
    /\ 2 * min - max <= v < min.
Proof.
  intros Hs Hneg Hmin Hmax Hd Hlow Hlt.
  rewrite draws_state. unfold draw. cbn [fst]. rewrite <- Nat.iter_succ.
  destruct (iterated_state_rem (S (length calls)) seed Hs) as [_ [-> | [Hr0 _]]];
    [ | lia].
  apply return_value_negative; try assumption.
  rewrite Nat.iter_succ in *.
  pose proof (next_rem_bound (Nat.iter (length calls) next_rem seed)) as Hb.
  unfold modulus in Hb. lia.
Qed.

Lemma negative_state_draws_below_min_witness :
  exists v,
    fst (draw (lit 1) (lit 10) (snd (draws [] (lit (-1000))))) = lit v
    /\ 2 * 1 - 10 <= v < 1.
Proof.
  apply (negative_state_draws_below_min (-1000) [] 1 10);
    vm_compute; intuition discriminate.
Defined.

(** X8.  The integer seeds from [-609] up to [2^53] are safe: the sum
    [seed * 1664525 + 1013904223] is not negative, so after any run of
    calls a draw on integer bounds [min < max] below [2^53] in magnitude
    together with their difference returns [v] with [min <= v < max].
    The bound is sharp: from the seed [-610] the first draw on such
    bounds is out of range. *)
Theorem seeds_from_minus_609_in_range
        (seed : Z) (calls : list (number * number)) (min max : Z) :
  -609 <= seed < 2 ^ 53 ->
  Z.abs min < 2 ^ 53 -> Z.abs max < 2 ^ 53 -> max - min < 2 ^ 53 -> min < max ->
  in_range (lit min) (lit max)
    (fst (draw (lit min) (lit max) (snd (draws calls (lit seed))))) = true
  /\ (Z.abs (2 * min - max) < 2 ^ 53 ->
      in_range (lit min) (lit max)
        (fst (draw (lit min) (lit max) (lit (-610)))) = false).
Proof.
  intros Hseed Hmin Hmax Hd Hlt. split.
  - rewrite draws_state. unfold draw. cbn [fst]. rewrite <- Nat.iter_succ.
    destruct (iterated_state_threshold (length calls) seed Hseed) as [r [Hr ->]].
    destruct (return_value_spec r min max Hr Hmin Hmax ltac:(lia)) as [v [-> [Hv _]]].
    specialize (Hv Hlt).
    rewrite Properties.in_range_lit by lia.
    apply andb_true_iff. split; [apply Z.leb_le | apply Z.ltb_lt]; lia.
  - intros Hlow. unfold draw. cbn [fst].
    assert (assign_state (lit (-610)) = lit (-1456027)) as ->
        by (vm_compute; reflexivity).
    destruct (return_value_negative (-1456027) min max ltac:(lia)
                Hmin Hmax Hd Hlow Hlt) as [v [-> Hv]].
    rewrite Properties.in_range_lit by lia.
    apply andb_false_iff. left. apply Z.leb_gt. lia.
Qed.

Lemma seeds_from_minus_609_in_range_witness :
  in_range (lit 1) (lit 10)
    (fst (draw (lit 1) (lit 10) (snd (draws [(lit 0, lit 2)] (lit (-609)))))) = true
  /\ (Z.abs (2 * 1 - 10) < 2 ^ 53 ->
      in_range (lit 1) (lit 10) (fst (draw (lit 1) (lit 10) (lit (-610)))) = false).
Proof.
  apply (seeds_from_minus_609_in_range (-609) [(lit 0, lit 2)] 1 10);
    vm_compute; intuition discriminate.
Defined.

(** X9.  Generators do not interfere: for two distinct generators of a
    store, a run of calls of the first followed by a run of calls of the
    second returns the same values and ends in the same store as the two
    runs in the other order. *)
Theorem generators_commute
        (g1 g2 : loc) (calls1 calls2 : list (number * number))
        (state1 state2 : number) (sigma : store) :
  g1 <> g2 -> sigma !! g1 = Some state1 -> sigma !! g2 = Some state2 ->
  exists out1 out2 sigma1 sigma2 sigma',
    call_all g1 calls1 sigma = Some (out1, sigma1)
    /\ call_all g2 calls2 sigma1 = Some (out2, sigma')
    /\ call_all g2 calls2 sigma = Some (out2, sigma2)
    /\ call_all g1 calls1 sigma2 = Some (out1, sigma').
Proof.
  intros Hne H1 H2.
  exists (map Normal (fst (draws calls1 state1))),
         (map Normal (fst (draws calls2 state2))),
         (<[g1 := snd (draws calls1 state1)]> sigma),
         (<[g2 := snd (draws calls2 state2)]> sigma),
         (<[g2 := snd (draws calls2 state2)]>
            (<[g1 := snd (draws calls1 state1)]> sigma)).
  split; [apply call_all_eq; exact H1 | ].
  split; [apply call_all_eq; rewrite lookup_insert_ne by exact Hne; exact H2 | ].
  split; [apply call_all_eq; exact H2 | ].
  rewrite (call_all_eq g1 calls1 state1)
    by (rewrite lookup_insert_ne by congruence; exact H1).
  rewrite (insert_insert_ne sigma g1 g2) by exact Hne. reflexivity.
Qed.

Lemma generators_commute_witness :
  exists out1 out2 sigma1 sigma2 sigma',
    call_all 0%nat [(lit 1, lit 10)] (<[0%nat := lit 1]> (<[1%nat := lit 2]> ∅))
    = Some (out1, sigma1)
    /\ call_all 1%nat [(lit 0, lit 2)] sigma1 = Some (out2, sigma')
    /\ call_all 1%nat [(lit 0, lit 2)] (<[0%nat := lit 1]> (<[1%nat := lit 2]> ∅))
       = Some (out2, sigma2)
    /\ call_all 0%nat [(lit 1, lit 10)] sigma2 = Some (out1, sigma').
Proof.
  apply (generators_commute 0%nat 1%nat [(lit 1, lit 10)] [(lit 0, lit 2)]
           (lit 1) (lit 2)).
  - discriminate.
  - apply lookup_insert_eq.
  - rewrite lookup_insert_ne by discriminate. apply lookup_insert_eq.
Defined.

(** X10.  The low bit of the state alternates: after a run of [n] calls
    from an integer seed [0 <= seed <= 5411272429], a draw on the full
    range [(0, 2^31)] returns an integer [0 <= v < 2^31] whose parity is
    that of [seed + n + 1]. *)
Theorem full_range_output_parity (seed : Z) (calls : list (number * number)) :
  0 <= seed <= max_exact_seed ->
  exists v,
    fst (draw (lit 0) (lit 2147483648) (snd (draws calls (lit seed)))) = lit v
    /\ 0 <= v < 2147483648
    /\ Z.odd v = xorb (Z.odd seed) (Nat.even (length calls)).
Proof.
  intros Hs. rewrite draws_state. unfold draw. cbn [fst].
  rewrite <- Nat.iter_succ.
  destruct (Properties.iterated_state_exact (S (length calls)) seed Hs) as [-> _].
  set (r := state_after (S (length calls)) seed).
  assert (0 <= r < 2147483648) as Hr.
  { unfold r, state_after. rewrite Nat.iter_succ. apply next_range. }
  exists r. split; [ | split; [exact Hr | ]].
  - change (lit 2147483648) with (lit (2 ^ 31)).
    rewrite return_value_pow2 by lia.
    change (2 ^ (31 - 31)) with 1. rewrite Z.div_1_r. reflexivity.
  - unfold r. rewrite state_after_parity, Nat.odd_succ. reflexivity.
Qed.

Lemma full_range_output_parity_witness :
  exists v,
    fst (draw (lit 0) (lit 2147483648) (snd (draws [(lit 1, lit 10)] (lit 1)))) = lit v
    /\ 0 <= v < 2147483648
    /\ Z.odd v = xorb (Z.odd 1) (Nat.even (length [(lit 1, lit 10)])).
Proof.
  apply (full_range_output_parity 1 [(lit 1, lit 10)]).
  vm_compute. intuition discriminate.
Defined.

(** X11.  The low bits have short periods: for [k <= 31], two draws on
    the full range [(0, 2^31)] made [2^k] calls apart (from an integer
    seed [0 <= seed <= 5411272429]) return integers that agree in their
    [k] low bits. *)
Theorem low_bits_short_period
        (seed : Z) (calls1 calls2 : list (number * number)) (k : nat) :
  0 <= seed <= max_exact_seed -> (k <= 31)%nat ->
  length calls2 = (2 ^ k + length calls1)%nat ->
  exists v1 v2,
    fst (draw (lit 0) (lit 2147483648) (snd (draws calls1 (lit seed)))) = lit v1
    /\ fst (draw (lit 0) (lit 2147483648) (snd (draws calls2 (lit seed)))) = lit v2
    /\ v1 mod 2 ^ Z.of_nat k = v2 mod 2 ^ Z.of_nat k.
Proof.
  intros Hs Hk Hlen.
  assert (forall n : nat,
             return_value (Nat.iter (S n) assign_state (lit seed))
               (lit 0) (lit 2147483648)
             = lit (state_after (S n) seed)) as Hv.
  { intros n.
    destruct (Properties.iterated_state_exact (S n) seed Hs) as [-> _].
    assert (0 <= state_after (S n) seed < 2147483648) as Hr
        by (unfold state_after; rewrite Nat.iter_succ; apply next_range).
    change (lit 2147483648) with (lit (2 ^ 31)).
    rewrite return_value_pow2 by lia.
    change (2 ^ (31 - 31)) with 1. rewrite Z.div_1_r. reflexivity. }
  exists (state_after (S (length calls1)) seed),
         (state_after (S (length calls2)) seed).
  rewrite !draws_state. unfold draw. cbn [fst]. rewrite <- !Nat.iter_succ.
  split; [apply Hv | ]. split; [apply Hv | ].
  rewrite Hlen, <- Nat.add_succ_r. symmetry.
  apply divide_mod_eq; [apply Z.pow_pos_nonneg; lia | ].
  apply state_after_low_bits. exact Hk.
Qed.

Lemma low_bits_short_period_witness :
  exists v1 v2,
    fst (draw (lit 0) (lit 2147483648) (snd (draws [] (lit 1)))) = lit v1
    /\ fst (draw (lit 0) (lit 2147483648)
              (snd (draws [(lit 1, lit 10); (lit 0, lit 2); (lit 0, lit 2); (lit 5, lit 7)]
                      (lit 1)))) = lit v2
    /\ v1 mod 2 ^ Z.of_nat 2 = v2 mod 2 ^ Z.of_nat 2.
Proof.
  apply (low_bits_short_period 1 []
           [(lit 1, lit 10); (lit 0, lit 2); (lit 0, lit 2); (lit 5, lit 7)] 2%nat).
  - vm_compute. intuition discriminate.
  - lia.
  - reflexivity.
Defined.

(** X12.  One value of a draw on the full range [(0, 2^31)] gives the
    generator away: the value is the state itself (integer seed
    [0 <= seed < 2^53], any earlier calls), so a new generator
    constructed from that value returns, on every run of calls, the
    values the observed generator goes on to return. *)
Theorem full_range_output_clones
        (seed : Z) (calls1 calls2 : list (number * number))
        (g : loc) (sigma : store) :
  0 <= seed < 2 ^ 53 ->
  sigma !! g = Some (snd (draws calls1 (lit seed))) ->
  exists v sigma1 out sigma2 sigma3,
    call g (lit 0) (lit 2147483648) sigma = Some (Normal v, sigma1)
    /\ sigma1 !! g = Some v
    /\ call_all g calls2 sigma1 = Some (out, sigma2)
    /\ call_all (fst (seededRandom v sigma1)) calls2 (snd (seededRandom v sigma1))
       = Some (out, sigma3).
Proof.
  intros Hseed Hg.
  rewrite (call_eq g _ _ _ sigma Hg).
  rewrite draws_state, <- Nat.iter_succ.
  destruct (iterated_state_nonneg (length calls1) seed Hseed) as [r [Hr ->]].
  change (lit 2147483648) with (lit (2 ^ 31)).
  rewrite return_value_pow2 by lia.
  change (2 ^ (31 - 31)) with 1. rewrite Z.div_1_r.
  exists (lit r), (<[g := lit r]> sigma). do 3 eexists.
  split; [reflexivity | ].
  split; [apply lookup_insert_eq | ].
  split; apply call_all_eq; [apply lookup_insert_eq | apply seededRandom_state].
Qed.

Lemma full_range_output_clones_witness :
  exists v sigma1 out sigma2 sigma3,
    call 0%nat (lit 0) (lit 2147483648)
      (<[0%nat := snd (draws [(lit 1, lit 10)] (lit 1))]> ∅)
    = Some (Normal v, sigma1)
    /\ sigma1 !! 0%nat = Some v
    /\ call_all 0%nat [(lit 0, lit 2)] sigma1 = Some (out, sigma2)
    /\ call_all (fst (seededRandom v sigma1)) [(lit 0, lit 2)]
         (snd (seededRandom v sigma1))
       = Some (out, sigma3).
Proof.
  apply (full_range_output_clones 1 [(lit 1, lit 10)] [(lit 0, lit 2)] 0%nat
           (<[0%nat := snd (draws [(lit 1, lit 10)] (lit 1))]> ∅)).
  - vm_compute. intuition discriminate.
  - apply lookup_insert_eq.
Defined.

(** X13.  Whatever the integral seed, however large, a draw on
    integer bounds [min < max] (below [2^53] in magnitude together with
    [max - min] and [2 * min - max]) returns NaN or an integer [v] with
    [2 * min - max <= v < max]: the value never reaches [max] and is
    never farther below [min] than the width of the range. *)
Theorem integral_seed_value_envelope
        (seed : number) (calls : list (number * number)) (min max : Z) :
  is_integer seed = true ->
  Z.abs min < 2 ^ 53 -> Z.abs max < 2 ^ 53 -> max - min < 2 ^ 53 ->
  Z.abs (2 * min - max) < 2 ^ 53 -> min < max ->
  fst (draw (lit min) (lit max) (snd (draws calls seed))) = S754_nan
  \/ exists v,
      fst (draw (lit min) (lit max) (snd (draws calls seed))) = lit v
      /\ 2 * min - max <= v < max.
Proof.
  intros Hseed Hmin Hmax Hd Hlow Hlt.
  rewrite draws_state. unfold draw. cbn [fst].
  pose proof (assign_state_assigned _
                (Properties.iterated_state_integer_or_special (length calls) seed Hseed))
    as [-> | [[b ->] | [r [Hr ->]]]].
  - left. apply return_value_nan.
  - right. exists min. split; [apply return_value_zero; (assumption || lia) | lia].
  - right. destruct (Z_lt_le_dec r 0) as [Hneg | Hpos].
    + destruct (return_value_negative r min max ltac:(lia) Hmin Hmax Hd Hlow Hlt)
        as [v [-> Hv]].
      exists v. split; [reflexivity | lia].
    + destruct (return_value_spec r min max ltac:(lia) Hmin Hmax ltac:(lia))
        as [v [-> [Hv _]]].
      exists v. split; [reflexivity | lia].
Qed.

Lemma integral_seed_value_envelope_witness :
  fst (draw (lit 1) (lit 10) (snd (draws [(lit 0, lit 2)] (lit (- 2 ^ 70)))))
  = S754_nan
  \/ exists v,
      fst (draw (lit 1) (lit 10) (snd (draws [(lit 0, lit 2)] (lit (- 2 ^ 70)))))
      = lit v
      /\ 2 * 1 - 10 <= v < 10.
Proof.
  apply (integral_seed_value_envelope (lit (- 2 ^ 70)) [(lit 0, lit 2)] 1 10);
    vm_compute; intuition discriminate.
Defined.

(** X14.  No value of a range is out of reach: for integer bounds of
    magnitude at most [2^52] with [0 < max - min <= 2^22] and every
    integer [min <= v < max] there is a seed in [0, 2^31) whose first
    draw on [(min, max)] returns [v]. *)
Theorem every_value_attained (min max v : Z) :
  Z.abs min <= 2 ^ 52 -> Z.abs max <= 2 ^ 52 -> 0 < max - min <= 2 ^ 22 ->
  min <= v < max ->
  exists seed,
    0 <= seed < 2147483648
    /\ fst (draw (lit min) (lit max) (lit seed)) = lit v.
Proof.
  intros Hmin Hmax Hd Hv.
  change (2 ^ 22) with 4194304 in Hd.
  destruct (scaled_value_attained (max - min) (v - min)
              ltac:(unfold modulus; lia) ltac:(lia)) as [r [Hr Hq]].
  destruct (next_surjective r Hr) as [seed [Hs Hnext]].
  unfold modulus in *.
  exists seed. split; [exact Hs | ].
  unfold draw. cbn [fst].
  rewrite assign_state_exact
    by (try apply seed_exact_range; unfold max_exact_seed; lia).
  rewrite Hnext.
  rewrite return_value_exact
    by (try assumption; change (2 ^ 22) with 4194304; lia).
  rewrite value_floor_div, Hq. f_equal. lia.
Qed.

Lemma every_value_attained_witness :
  exists seed,
    0 <= seed < 2147483648
    /\ fst (draw (lit 1) (lit 10) (lit seed)) = lit 9.
Proof.
  apply (every_value_attained 1 10 9); vm_compute; intuition discriminate.
Defined.

End Behaviour.
